(** * polaris-go, pkg/model/pb/rule.go: service rules and their regex cache

    A shallow embedding of [ServiceRuleInProto], its constructor
    [NewServiceRuleInProto], [ValidateAndBuildCache] and
    [buildCacheFromMatcher], followed by the properties of the rule
    document and of the matcher cache.

    Conventions of the embedding:
    - a Go pointer or interface value that may be nil is an [option];
    - a call that dereferences nil is the outcome [Panicked];
    - a Go [error] is the text of its message ([fmt.Errorf] builds nothing
      else), [None] is the nil error;
    - the heap is reduced to what the properties observe: the address
      handed to each compiled [Regexp] (object identity) and the
      chronological list of calls made to the regex engine and to the
      cache ([World]);
    - [range] over a Go map visits the entries in an unspecified order: the
      metadata map is the list of its entries in the order of the visit, and
      every statement holds for every list, hence for every order. *)

From Stdlib Require Import Ascii String.
From stdpp Require Import base strings list gmap.

Open Scope string_scope.
Open Scope list_scope.

(** ** Outcomes, errors *)

Inductive outcome (A : Type) : Type :=
  | Returned (a : A)
  | Panicked (msg : string).
Arguments Returned {A} a.
Arguments Panicked {A} msg.

Definition error : Type := string.

Definition nil_dereference : string :=
  "invalid memory address or nil pointer dereference".

(** ** namingpb.MatchString *)

(** Modelled from the spec: the enum namingpb.MatchString_MatchStringType is
    declared outside src; the spec gives it the members Exact and Regex. *)
Inductive MatchStringType : Type := MatchString_EXACT | MatchString_REGEX.

(** Modelled from the spec: the enum namingpb.MatchString_ValueType is
    declared outside src; the spec gives it the members Text and Variable. *)
Inductive ValueType : Type := MatchString_TEXT | MatchString_VARIABLE.

Definition MatchStringType_eqb (a b : MatchStringType) : bool :=
  match a, b with
  | MatchString_EXACT, MatchString_EXACT => true
  | MatchString_REGEX, MatchString_REGEX => true
  | _, _ => false
  end.

Definition ValueType_eqb (a b : ValueType) : bool :=
  match a, b with
  | MatchString_TEXT, MatchString_TEXT => true
  | MatchString_VARIABLE, MatchString_VARIABLE => true
  | _, _ => false
  end.

(** The message has the fields the source reads: [Type], [ValueType] and
    [Value], a pointer to a wrapped string. *)
Record MatchString : Type := {
  ms_Type : MatchStringType;
  ms_ValueType : ValueType;
  ms_Value : option string
}.

(** The generated getters are nil-safe: [metaValue.GetValue()] is nil on a nil
    receiver, and [GetValue()] of a nil wrapper is the empty string. *)
Definition MatchString_GetValue (m : option MatchString) : option string :=
  match m with
  | None => None
  | Some ms => ms_Value ms
  end.

Definition StringValue_GetValue (v : option string) : string :=
  match v with
  | None => ""
  | Some s => s
  end.

(** ** The regex engine and the world *)

(** A compiled [*regexp.Regexp]: the address of the object and the text it was
    compiled from. *)
Record Regexp : Type := {
  re_addr : nat;
  re_text : string
}.

Inductive Event : Type :=
  | CompileCall (text : string)
  | PutCall (text : string) (addr : nat).

Record World : Type := {
  next_addr : nat;
  trace : list Event
}.

Definition log (e : Event) (w : World) : World :=
  {| next_addr := next_addr w; trace := trace w ++ [e] |}.

Definition alloc (w : World) : nat * World :=
  (next_addr w, {| next_addr := S (next_addr w); trace := trace w |}).

(** The engine is the external package dlclark/regexp2. Of [regexp.Compile
    (text, regexp.RE2)] the embedding keeps the verdict of its parser:
    [syntax_error text] is [None] when the text is accepted and the cause
    otherwise. *)
Class RegexEngine : Type := {
  syntax_error : string -> option string
}.

Definition regexp_Compile `{RegexEngine} (text : string) (w : World)
  : (Regexp + string) * World :=
  let w1 := log (CompileCall text) w in
  match syntax_error text with
  | Some cause => (inr cause, w1)
  | None =>
      let '(a, w2) := alloc w1 in
      (inl {| re_addr := a; re_text := text |}, w2)
  end.

(** ** model.RuleCache *)

(** Modelled from the spec: model.RuleCache and its constructor live in
    pkg/model, outside src. The spec describes a mapping from pattern text to
    compiled matcher. *)
Abbreviation RuleCache := (gmap string Regexp).

(** Modelled from the spec: model.NewRuleCache, a new cache with no entry. *)
Definition NewRuleCache : RuleCache := ∅.

(** Modelled from the spec: GetRegexMatcher, the non-mutating lookup
    returning the matcher or nil. *)
Definition GetRegexMatcher (c : RuleCache) (text : string) : option Regexp :=
  c !! text.

(** Modelled from the spec: PutRegexMatcher, which inserts if absent. The
    call is recorded in the world. *)
Definition PutRegexMatcher (c : RuleCache) (text : string) (m : Regexp)
  (w : World) : RuleCache * World :=
  let w1 := log (PutCall text (re_addr m)) w in
  match c !! text with
  | Some _ => (c, w1)
  | None => (<[text := m]> c, w1)
  end.

(** ** buildCacheFromMatcher *)

Definition MatchAll : string := "*".

Definition err_empty_variable : error :=
  "value of variable type can not be empty".

(** [fmt.Errorf("invalid regex expression %s, error is %v", text, err)] *)
Definition err_invalid_regex (text cause : string) : error :=
  "invalid regex expression " +:+ text +:+ ", error is " +:+ cause.

(** What one turn of the loop does to the control flow. *)
Inductive control : Type :=
  | Continue
  | Return (err : error)
  | Panic (msg : string).

(** The body of the [for _, metaValue := range metadata] loop. *)
Definition loop_body `{RegexEngine} (metaValue : option MatchString)
  (ruleCache : RuleCache) (w : World) : control * RuleCache * World :=
  let valueRawStr := StringValue_GetValue (MatchString_GetValue metaValue) in
  if String.eqb valueRawStr MatchAll then (Continue, ruleCache, w)
  else
    match metaValue with
    | None => (Panic nil_dereference, ruleCache, w)
    | Some mv =>
        if ValueType_eqb (ms_ValueType mv) MatchString_VARIABLE
           && String.eqb valueRawStr ""
        then (Return err_empty_variable, ruleCache, w)
        else if negb (MatchStringType_eqb (ms_Type mv) MatchString_REGEX)
                || negb (ValueType_eqb (ms_ValueType mv) MatchString_TEXT)
        then (Continue, ruleCache, w)
        else
          match GetRegexMatcher ruleCache valueRawStr with
          | Some _ => (Continue, ruleCache, w)
          | None =>
              match regexp_Compile valueRawStr w with
              | (inr cause, w1) =>
                  (Return (err_invalid_regex valueRawStr cause), ruleCache, w1)
              | (inl regexValue, w1) =>
                  let '(c1, w2) :=
                    PutRegexMatcher ruleCache valueRawStr regexValue w1 in
                  (Continue, c1, w2)
              end
          end
    end.

(** The loop over the entries, in the order of the visit. *)
Fixpoint range_metadata `{RegexEngine}
  (metadata : list (string * option MatchString))
  (ruleCache : RuleCache) (w : World)
  : outcome (option error) * RuleCache * World :=
  match metadata with
  | [] => (Returned None, ruleCache, w)
  | (_, metaValue) :: rest =>
      match loop_body metaValue ruleCache w with
      | (Continue, c1, w1) => range_metadata rest c1 w1
      | (Return err, c1, w1) => (Returned (Some err), c1, w1)
      | (Panic msg, c1, w1) => (Panicked msg, c1, w1)
      end
  end.

(** [ruleCache] is the cache object the interface value points to; the
    result carries the cache and the world as the call leaves them. *)
Definition buildCacheFromMatcher `{RegexEngine}
  (metadata : list (string * option MatchString))
  (ruleCache : RuleCache) (w : World)
  : outcome (option error) * RuleCache * World :=
  if Nat.eqb (length metadata) 0 then (Returned None, ruleCache, w)
  else range_metadata metadata ruleCache w.

(** The events a call added to the world. *)
Definition events_since (w w' : World) : list Event :=
  drop (length (trace w)) (trace w').

Definition is_put (text : string) (e : Event) : bool :=
  match e with
  | PutCall t _ => String.eqb t text
  | CompileCall _ => false
  end.

Definition is_compile (text : string) (e : Event) : bool :=
  match e with
  | CompileCall t => String.eqb t text
  | PutCall _ _ => false
  end.

Fixpoint count_events (p : Event -> bool) (evs : list Event) : nat :=
  match evs with
  | [] => 0
  | e :: rest => (if p e then 1 else 0) + count_events p rest
  end.

(** ** Rule kinds, the wire document *)

(** Modelled from the spec: model.EventType is declared outside src. The
    source names the kinds EventRouting and EventRateLimiting; the enum of the
    spec is open, every further kind is [EventOther]. *)
Inductive EventType : Type :=
  | EventRouting
  | EventRateLimiting
  | EventOther (code : N).

(** Modelled from the spec: the tag of the wire document, the enum
    namingpb.DiscoverResponse_DiscoverResponseType declared outside src; the
    raw document carries a rule-kind tag. *)
Inductive DiscoverResponseType : Type :=
  | DiscoverResponse_ROUTING
  | DiscoverResponse_RATE_LIMIT
  | DiscoverResponse_OTHER (code : N).

(** Modelled from the spec: GetEventType, defined outside src, turns the tag
    of the wire document into the rule kind. *)
Definition GetEventType (t : DiscoverResponseType) : EventType :=
  match t with
  | DiscoverResponse_ROUTING => EventRouting
  | DiscoverResponse_RATE_LIMIT => EventRateLimiting
  | DiscoverResponse_OTHER code => EventOther code
  end.

(** namingpb.Service: the two wrapped strings the constructor reads. *)
Record pbService : Type := {
  pb_Namespace : option string;
  pb_Name : option string
}.

(** Modelled from the spec: namingpb.DiscoverResponse, declared outside src,
    carries a rule-kind tag, a service identity and an opaque payload. *)
Record DiscoverResponse (Raw : Type) : Type := {
  resp_Type : DiscoverResponseType;
  resp_Service : option pbService;
  resp_payload : Raw
}.
Arguments resp_Type {Raw} d.
Arguments resp_Service {Raw} d.
Arguments resp_payload {Raw} d.

Record ServiceKey : Type := {
  Namespace : string;
  Service : string
}.

(** ** ServiceRuleAssistant and the dispatch table *)

Section Document.

Context {Message Raw : Type}.

(** The interface [ServiceRuleAssistant]. [SetDefault] writes the message in
    place: it is given the content and returns the new content. [Validate]
    reads the message and works on the cache it is handed. *)
Record ServiceRuleAssistant : Type := {
  ParseRuleValue : DiscoverResponse Raw -> option Message * string;
  SetDefault : option Message -> option Message;
  Validate : option Message -> option RuleCache -> World ->
             outcome (option error) * option RuleCache * World
}.

(** The two implementations the table holds are defined outside src. *)
Class Assistants : Type := {
  RoutingAssistant : ServiceRuleAssistant;
  RateLimitingAssistant : ServiceRuleAssistant
}.

(** A Go map read at a missing key gives the zero value, here the nil
    interface. *)
Definition eventTypeToAssistant `{Assistants} (t : EventType)
  : option ServiceRuleAssistant :=
  match t with
  | EventRouting => Some RoutingAssistant
  | EventRateLimiting => Some RateLimitingAssistant
  | EventOther _ => None
  end.

(** ** ServiceRuleInProto *)

Record ServiceRuleInProto : Type := {
  embedded_ServiceKey : option ServiceKey;
  initialized : bool;
  revision : string;
  ruleValue : option Message;
  ruleCache : option RuleCache;
  eventType : EventType;
  assistant : option ServiceRuleAssistant;
  CacheLoaded : Z;
  validateError : option error
}.

(** [&ServiceRuleInProto{}]: every field at its zero value. The zero of
    [EventType] is taken outside the dispatch table. *)
Definition zero_ServiceRuleInProto : ServiceRuleInProto :=
  {| embedded_ServiceKey := None;
     initialized := false;
     revision := "";
     ruleValue := None;
     ruleCache := None;
     eventType := EventOther 0;
     assistant := None;
     CacheLoaded := 0;
     validateError := None |}.

Definition NewServiceRuleInProto `{Assistants}
  (resp : option (DiscoverResponse Raw)) : outcome ServiceRuleInProto :=
  match resp with
  | None => Returned zero_ServiceRuleInProto
  | Some r =>
      match resp_Service r with
      | None => Panicked nil_dereference
      | Some svc =>
          let key := {| Namespace := StringValue_GetValue (pb_Namespace svc);
                        Service := StringValue_GetValue (pb_Name svc) |} in
          let et := GetEventType (resp_Type r) in
          match eventTypeToAssistant et with
          | None => Panicked nil_dereference
          | Some a =>
              let '(value, rev) := ParseRuleValue a r in
              Returned
                {| embedded_ServiceKey := Some key;
                   initialized := true;
                   revision := rev;
                   ruleValue := value;
                   ruleCache := Some NewRuleCache;
                   eventType := et;
                   assistant := Some a;
                   CacheLoaded := 0;
                   validateError := None |}
          end
      end
  end.

Definition IsCacheLoaded (s : ServiceRuleInProto) : bool :=
  (0 <? CacheLoaded s)%Z.

Definition set_ruleValue (v : option Message) (s : ServiceRuleInProto)
  : ServiceRuleInProto :=
  {| embedded_ServiceKey := embedded_ServiceKey s;
     initialized := initialized s;
     revision := revision s;
     ruleValue := v;
     ruleCache := ruleCache s;
     eventType := eventType s;
     assistant := assistant s;
     CacheLoaded := CacheLoaded s;
     validateError := validateError s |}.

Definition set_ruleCache (c : option RuleCache) (s : ServiceRuleInProto)
  : ServiceRuleInProto :=
  {| embedded_ServiceKey := embedded_ServiceKey s;
     initialized := initialized s;
     revision := revision s;
     ruleValue := ruleValue s;
     ruleCache := c;
     eventType := eventType s;
     assistant := assistant s;
     CacheLoaded := CacheLoaded s;
     validateError := validateError s |}.

Definition set_validateError (e : option error) (s : ServiceRuleInProto)
  : ServiceRuleInProto :=
  {| embedded_ServiceKey := embedded_ServiceKey s;
     initialized := initialized s;
     revision := revision s;
     ruleValue := ruleValue s;
     ruleCache := ruleCache s;
     eventType := eventType s;
     assistant := assistant s;
     CacheLoaded := CacheLoaded s;
     validateError := e |}.

(** The message and the cache are objects the document points to: what
    [SetDefault] and [Validate] write is read back through the document. *)
Definition ValidateAndBuildCache (s : ServiceRuleInProto) (w : World)
  : outcome (option error) * ServiceRuleInProto * World :=
  match assistant s with
  | None => (Panicked nil_dereference, s, w)
  | Some a =>
      let s1 := set_ruleValue (SetDefault a (ruleValue s)) s in
      match Validate a (ruleValue s1) (ruleCache s1) w with
      | (Panicked msg, c, w1) => (Panicked msg, set_ruleCache c s1, w1)
      | (Returned (Some err), c, w1) =>
          (Returned (Some err),
           set_validateError (Some err) (set_ruleCache c s1), w1)
      | (Returned None, c, w1) => (Returned None, set_ruleCache c s1, w1)
      end
  end.

(** [s.Namespace] goes through the embedded pointer. *)
Definition GetNamespace (s : ServiceRuleInProto) : outcome string :=
  if initialized s then
    match embedded_ServiceKey s with
    | Some k => Returned (Namespace k)
    | None => Panicked nil_dereference
    end
  else Returned "".

Definition GetService (s : ServiceRuleInProto) : outcome string :=
  if initialized s then
    match embedded_ServiceKey s with
    | Some k => Returned (Service k)
    | None => Panicked nil_dereference
    end
  else Returned "".

Definition GetValue (s : ServiceRuleInProto) : option Message := ruleValue s.

Definition GetType (s : ServiceRuleInProto) : EventType := eventType s.

Definition IsInitialized (s : ServiceRuleInProto) : bool := initialized s.

Definition GetRevision (s : ServiceRuleInProto) : string := revision s.

Definition GetRuleCache (s : ServiceRuleInProto) : option RuleCache :=
  ruleCache s.

Definition GetValidateError (s : ServiceRuleInProto) : option error :=
  validateError s.

(** [GetValue] hands out the pointer the document keeps: a caller that writes
    the message through it changes the payload of the document. *)
Definition write_through_GetValue (f : Message -> Message)
  (s : ServiceRuleInProto) : ServiceRuleInProto :=
  set_ruleValue (f <$> GetValue s) s.

End Document.

Arguments ServiceRuleAssistant : clear implicits.
Arguments Assistants : clear implicits.
Arguments ServiceRuleInProto : clear implicits.

(** ** A sample engine for the examples *)

(** The parser of regexp2 refuses a text whose groups do not close. This
    stand-in keeps that one check (with the escape character) and accepts the
    rest; it serves the examples only, the theorems hold for every engine. *)
Fixpoint paren_depth (s : string) (depth : nat) : option nat :=
  match s with
  | EmptyString => Some depth
  | String "\"%char (String _ rest) => paren_depth rest depth
  | String "("%char rest => paren_depth rest (S depth)
  | String ")"%char rest =>
      match depth with
      | O => None
      | S d => paren_depth rest d
      end
  | String _ rest => paren_depth rest depth
  end.

Definition sample_syntax_error (text : string) : option string :=
  match paren_depth text 0 with
  | Some O => None
  | Some (S _) =>
      Some ("error parsing regexp: missing closing ) in `" +:+ text +:+ "`")
  | None =>
      Some ("error parsing regexp: unexpected ) in `" +:+ text +:+ "`")
  end.

Definition sample_engine : RegexEngine :=
  {| syntax_error := sample_syntax_error |}.

Definition world0 : World := {| next_addr := 0; trace := [] |}.

Definition regex_text (v : string) : option MatchString :=
  Some {| ms_Type := MatchString_REGEX; ms_ValueType := MatchString_TEXT;
          ms_Value := Some v |}.


(** ** A sample assistant for the examples *)

(** Modelled from the spec: RoutingAssistant is defined outside src. Its
    Validate walks every pattern-bearing field of the payload, builds the
    cache from each and returns the first error. The payload is the list of
    these fields, the raw document carries it with its revision. *)
Definition sample_message : Type := list (list (string * option MatchString)).

Definition sample_raw : Type := (sample_message * string)%type.

Fixpoint validate_fields `{RegexEngine} (fields : sample_message)
  (c : RuleCache) (w : World) : outcome (option error) * RuleCache * World :=
  match fields with
  | [] => (Returned None, c, w)
  | metadata :: rest =>
      match buildCacheFromMatcher metadata c w with
      | (Returned None, c1, w1) => validate_fields rest c1 w1
      | stop => stop
      end
  end.

Definition sample_Validate `{RegexEngine} (message : option sample_message)
  (cache : option RuleCache) (w : World)
  : outcome (option error) * option RuleCache * World :=
  match message, cache with
  | None, _ => (Returned None, cache, w)
  | Some fields, Some c =>
      let '(r, c1, w1) := validate_fields fields c w in (r, Some c1, w1)
  | Some _, None => (Panicked nil_dereference, cache, w)
  end.

Definition sample_assistant `{RegexEngine}
  : ServiceRuleAssistant sample_message sample_raw :=
  {| ParseRuleValue := fun r => (Some (fst (resp_payload r)), snd (resp_payload r));
     SetDefault := fun m => m;
     Validate := sample_Validate |}.

Definition sample_assistants `{RegexEngine}
  : Assistants sample_message sample_raw :=
  {| RoutingAssistant := sample_assistant;
     RateLimitingAssistant := sample_assistant |}.

Definition sample_response (t : DiscoverResponseType)
  (fields : sample_message) : DiscoverResponse sample_raw :=
  {| resp_Type := t;
     resp_Service := Some {| pb_Namespace := Some "Test"; pb_Name := Some "svc" |};
     resp_payload := (fields, "rev-1") |}.

(** ** Scenarios of the examples *)

Definition exact_text (v : string) : option MatchString :=
  Some {| ms_Type := MatchString_EXACT; ms_ValueType := MatchString_TEXT;
          ms_Value := Some v |}.

Definition empty_variable : MatchString :=
  {| ms_Type := MatchString_EXACT; ms_ValueType := MatchString_VARIABLE;
     ms_Value := Some "" |}.

Definition unclosed_cause : string :=
  "error parsing regexp: missing closing ) in `(unclosed`".

Definition unclosed_then_empty_variable : list (string * option MatchString) :=
  [("a", regex_text "(unclosed"); ("b", Some empty_variable)].

Definition foo_then_unclosed : list (string * option MatchString) :=
  [("a", regex_text "^foo.*"); ("b", regex_text "(unclosed")].

Definition wildcard_exact_foo : list (string * option MatchString) :=
  [("w", regex_text "*"); ("e", exact_text "a.*(b"); ("r", regex_text "^foo.*")].

(** A routing document with an invalid pattern is built and validated; its
    owner then writes a valid pattern into the message obtained from
    [GetValue] and validates again. *)
Definition revalidation_response : DiscoverResponse sample_raw :=
  sample_response DiscoverResponse_ROUTING [[("k", regex_text "(unclosed")]].

Definition revalidation_constructed
  : ServiceRuleInProto sample_message sample_raw :=
  match @NewServiceRuleInProto _ _ (@sample_assistants sample_engine)
          (Some revalidation_response) with
  | Returned s => s
  | Panicked _ => zero_ServiceRuleInProto
  end.

Definition revalidation_first
  : outcome (option error) * ServiceRuleInProto sample_message sample_raw * World :=
  ValidateAndBuildCache revalidation_constructed world0.

Definition revalidation_second
  : outcome (option error) * ServiceRuleInProto sample_message sample_raw * World :=
  ValidateAndBuildCache
    (write_through_GetValue (fun _ => [[("k", regex_text "^foo.*")]])
       (snd (fst revalidation_first)))
    (snd revalidation_first).

(** * Properties *)

(** ** One turn of the loop *)

(** The entries the loop hands to the engine: regex type, text value kind,
    and a value other than the wildcard. *)
Definition needs_compile (metaValue : option MatchString) (v : string) : Prop :=
  exists mv, metaValue = Some mv
    /\ ms_Type mv = MatchString_REGEX
    /\ ms_ValueType mv = MatchString_TEXT
    /\ StringValue_GetValue (ms_Value mv) = v
    /\ v <> MatchAll.

Definition compiled_world (v : string) (w : World) : World :=
  {| next_addr := S (next_addr w);
     trace := trace w ++ [CompileCall v; PutCall v (next_addr w)] |}.

(** The runs of the loop, by what each turn does: a quiet turn leaves the
    cache and the world as they are and goes on, returns or panics; a turn
    that compiles either fails, and the loop returns, or stores the new
    matcher and goes on. The last index lists the events of the run. *)
Inductive runs `{RegexEngine}
  : list (string * option MatchString) -> RuleCache -> World ->
    outcome (option error) -> RuleCache -> World -> list Event -> Prop :=
  | runs_done c w :
      runs [] c w (Returned None) c w []
  | runs_skip key metaValue rest c w r c' w' evs :
      loop_body metaValue c w = (Continue, c, w) ->
      runs rest c w r c' w' evs ->
      runs ((key, metaValue) :: rest) c w r c' w' evs
  | runs_return key metaValue rest c w err :
      loop_body metaValue c w = (Return err, c, w) ->
      runs ((key, metaValue) :: rest) c w (Returned (Some err)) c w []
  | runs_panic key metaValue rest c w msg :
      loop_body metaValue c w = (Panic msg, c, w) ->
      runs ((key, metaValue) :: rest) c w (Panicked msg) c w []
  | runs_reject key metaValue rest c w v cause :
      needs_compile metaValue v ->
      c !! v = None ->
      syntax_error v = Some cause ->
      runs ((key, metaValue) :: rest) c w
        (Returned (Some (err_invalid_regex v cause))) c
        (log (CompileCall v) w) [CompileCall v]
  | runs_compile key metaValue rest c w v r c' w' evs :
      needs_compile metaValue v ->
      c !! v = None ->
      syntax_error v = None ->
      runs rest (<[v := {| re_addr := next_addr w; re_text := v |}]> c)
        (compiled_world v w) r c' w' evs ->
      runs ((key, metaValue) :: rest) c w r c' w'
        (CompileCall v :: PutCall v (next_addr w) :: evs).

(** The verdict of the loop on one entry, read off the tests of its body
    against the cache the build starts from: [true] when the turn goes on to
    the next entry. *)
Definition entry_accepted `{RegexEngine} (c : RuleCache)
  (metaValue : option MatchString) : bool :=
  let valueRawStr := StringValue_GetValue (MatchString_GetValue metaValue) in
  if String.eqb valueRawStr MatchAll then true
  else
    match metaValue with
    | None => false
    | Some mv =>
        if ValueType_eqb (ms_ValueType mv) MatchString_VARIABLE
           && String.eqb valueRawStr ""
        then false
        else if negb (MatchStringType_eqb (ms_Type mv) MatchString_REGEX)
                || negb (ValueType_eqb (ms_ValueType mv) MatchString_TEXT)
        then true
        else
          match c !! valueRawStr with
          | Some _ => true
          | None =>
              match syntax_error valueRawStr with
              | None => true
              | Some _ => false
              end
          end
    end.

Definition is_compile_call (e : Event) : bool :=
  match e with
  | CompileCall _ => true
  | PutCall _ _ => false
  end.

(** Every matcher of the cache was compiled from the text it is stored
    under. *)
Definition keyed_by_text (c : RuleCache) : Prop :=
  forall text m, c !! text = Some m -> re_text m = text.

(** The documents reached from a document by calls of
    [ValidateAndBuildCache], in whatever worlds. *)
Inductive validated_from {Message Raw : Type}
  : ServiceRuleInProto Message Raw -> ServiceRuleInProto Message Raw -> Prop :=
  | validated_none s : validated_from s s
  | validated_again s w r s1 w1 s2 :
      ValidateAndBuildCache s w = (r, s1, w1) ->
      validated_from s1 s2 ->
      validated_from s s2.

(** ** buildCacheFromMatcher on the interface value *)

(** The Go parameter [ruleCache] is an interface value and may be nil. Here
    the function is given the interface value as it is: the tests of the loop
    are those of [loop_body], and the method call [ruleCache.GetRegexMatcher]
    on the nil interface panics. *)
Definition loop_body_iface `{RegexEngine} (metaValue : option MatchString)
  (ruleCache : option RuleCache) (w : World)
  : control * option RuleCache * World :=
  let valueRawStr := StringValue_GetValue (MatchString_GetValue metaValue) in
  if String.eqb valueRawStr MatchAll then (Continue, ruleCache, w)
  else
    match metaValue with
    | None => (Panic nil_dereference, ruleCache, w)
    | Some mv =>
        if ValueType_eqb (ms_ValueType mv) MatchString_VARIABLE
           && String.eqb valueRawStr ""
        then (Return err_empty_variable, ruleCache, w)
        else if negb (MatchStringType_eqb (ms_Type mv) MatchString_REGEX)
                || negb (ValueType_eqb (ms_ValueType mv) MatchString_TEXT)
        then (Continue, ruleCache, w)
        else
          match ruleCache with
          | None => (Panic nil_dereference, ruleCache, w)
          | Some c =>
              match GetRegexMatcher c valueRawStr with
              | Some _ => (Continue, ruleCache, w)
              | None =>
                  match regexp_Compile valueRawStr w with
                  | (inr cause, w1) =>
                      (Return (err_invalid_regex valueRawStr cause),
                       ruleCache, w1)
                  | (inl regexValue, w1) =>
                      let '(c1, w2) :=
                        PutRegexMatcher c valueRawStr regexValue w1 in
                      (Continue, Some c1, w2)
                  end
              end
          end
    end.

Fixpoint range_metadata_iface `{RegexEngine}
  (metadata : list (string * option MatchString))
  (ruleCache : option RuleCache) (w : World)
  : outcome (option error) * option RuleCache * World :=
  match metadata with
  | [] => (Returned None, ruleCache, w)
  | (_, metaValue) :: rest =>
      match loop_body_iface metaValue ruleCache w with
      | (Continue, c1, w1) => range_metadata_iface rest c1 w1
      | (Return err, c1, w1) => (Returned (Some err), c1, w1)
      | (Panic msg, c1, w1) => (Panicked msg, c1, w1)
      end
  end.

Definition buildCacheFromMatcher_iface `{RegexEngine}
  (metadata : list (string * option MatchString))
  (ruleCache : option RuleCache) (w : World)
  : outcome (option error) * option RuleCache * World :=
  if Nat.eqb (length metadata) 0 then (Returned None, ruleCache, w)
  else range_metadata_iface metadata ruleCache w.

(** The result of the function on a cache, seen as a result on the interface
    value that points to it. *)
Definition on_cache (res : outcome (option error) * RuleCache * World)
  : outcome (option error) * option RuleCache * World :=
  let '(r, c, w) := res in (r, Some c, w).

Section Build.

Context `{RegexEngine}.

Lemma loop_body_cases metaValue c w k c' w' :
  loop_body metaValue c w = (k, c', w') ->
  (c' = c /\ w' = w)
  \/ (exists v cause, needs_compile metaValue v /\ c !! v = None
        /\ syntax_error v = Some cause
        /\ k = Return (err_invalid_regex v cause)
        /\ c' = c /\ w' = log (CompileCall v) w)
  \/ (exists v, needs_compile metaValue v /\ c !! v = None
        /\ syntax_error v = None /\ k = Continue
        /\ c' = <[v := {| re_addr := next_addr w; re_text := v |}]> c
        /\ w' = compiled_world v w).
Proof.
  unfold loop_body. intros Hb.
  destruct (String.eqb_spec (StringValue_GetValue (MatchString_GetValue metaValue)) MatchAll)
    as [Hall | Hall]; [left; by inversion Hb |].
  destruct metaValue as [mv |]; [| left; by inversion Hb].
  simpl in *.
  destruct (ValueType_eqb (ms_ValueType mv) MatchString_VARIABLE
            && String.eqb (StringValue_GetValue (ms_Value mv)) "") eqn:Hvar;
    [left; by inversion Hb |].
  destruct (ms_Type mv) eqn:Hty, (ms_ValueType mv) eqn:Hvt; simpl in Hb;
    try (left; by inversion Hb).
  unfold GetRegexMatcher in Hb.
  destruct (c !! StringValue_GetValue (ms_Value mv)) as [m |] eqn:Hget;
    [left; by inversion Hb |].
  assert (Hneed : needs_compile (Some mv) (StringValue_GetValue (ms_Value mv)))
    by (exists mv; auto).
  unfold regexp_Compile, PutRegexMatcher in Hb.
  destruct (syntax_error (StringValue_GetValue (ms_Value mv))) as [cause |] eqn:Hsyn.
  - right; left. inversion Hb; subst. eauto 10.
  - right; right. simpl in Hb. rewrite Hget in Hb. inversion Hb; subst.
    exists (StringValue_GetValue (ms_Value mv)). repeat split; auto.
    unfold compiled_world, log; simpl. by rewrite <- app_assoc.
Qed.

Lemma range_metadata_runs metadata : forall c w r c' w',
  range_metadata metadata c w = (r, c', w') ->
  exists evs, runs metadata c w r c' w' evs /\ trace w' = trace w ++ evs.
Proof.
  induction metadata as [| [key metaValue] rest IH]; intros c w r c' w' Hrun;
    simpl in Hrun.
  - inversion Hrun; subst. exists []. split; [constructor | by rewrite app_nil_r].
  - destruct (loop_body metaValue c w) as [[k c1] w1] eqn:Hb.
    destruct (loop_body_cases _ _ _ _ _ _ Hb)
      as [[-> ->] | [(v & cause & Hn & Hc & Hs & -> & -> & ->)
                    | (v & Hn & Hc & Hs & -> & -> & ->)]].
    + destruct k.
      * destruct (IH _ _ _ _ _ Hrun) as (evs & Hr & Ht).
        exists evs. split; [by apply runs_skip | done].
      * inversion Hrun; subst. exists []. split;
          [by apply runs_return | by rewrite app_nil_r].
      * inversion Hrun; subst. exists []. split;
          [by apply runs_panic | by rewrite app_nil_r].
    + inversion Hrun; subst. exists [CompileCall v]. split;
        [by apply runs_reject | done].
    + destruct (IH _ _ _ _ _ Hrun) as (evs & Hr & Ht).
      exists (CompileCall v :: PutCall v (next_addr w) :: evs). split;
        [by apply runs_compile |].
      rewrite Ht. simpl. by rewrite <- app_assoc.
Qed.

Lemma events_since_app w w' evs :
  trace w' = trace w ++ evs -> events_since w w' = evs.
Proof.
  intros Ht. unfold events_since. rewrite Ht. by rewrite drop_app_length.
Qed.

Lemma buildCacheFromMatcher_runs metadata c w r c' w' :
  buildCacheFromMatcher metadata c w = (r, c', w') ->
  runs metadata c w r c' w' (events_since w w').
Proof.
  unfold buildCacheFromMatcher. intros Hb.
  destruct metadata as [| e rest]; cbn [length Nat.eqb] in Hb.
  - inversion Hb; subst. unfold events_since. rewrite drop_all. constructor.
  - destruct (range_metadata_runs _ _ _ _ _ _ Hb) as (evs & Hr & Ht).
    by rewrite (events_since_app _ _ _ Ht).
Qed.

(** ** Facts about runs *)

Lemma runs_mono metadata c w r c' w' evs :
  runs metadata c w r c' w' evs ->
  forall text m, c !! text = Some m -> c' !! text = Some m.
Proof.
  induction 1 as [| | | | | key mv rest c w v r c' w' evs Hn Hc Hs Hr IH];
    intros text m Hm; auto.
  apply IH. rewrite lookup_insert_ne; [done | congruence].
Qed.

Lemma runs_compile_origin metadata c w r c' w' evs :
  runs metadata c w r c' w' evs ->
  forall v, CompileCall v ∈ evs ->
    c !! v = None
    /\ exists key metaValue, (key, metaValue) ∈ metadata /\ needs_compile metaValue v.
Proof.
  induction 1 as [| key mv rest c w r c' w' evs Hb Hr IH | | |
                  key mv rest c w v cause Hn Hc Hs
                 | key mv rest c w v r c' w' evs Hn Hc Hs Hr IH];
    intros u Hin.
  - by apply elem_of_nil in Hin.
  - destruct (IH _ Hin) as (Hu & k & m & Hm & Hnu).
    split; [done |]. exists k, m. split; [by apply list_elem_of_further | done].
  - by apply elem_of_nil in Hin.
  - by apply elem_of_nil in Hin.
  - apply list_elem_of_singleton in Hin. inversion Hin; subst.
    split; [done |]. exists key, mv. split; [apply list_elem_of_here | done].
  - apply elem_of_cons in Hin as [Heq | Hin].
    { inversion Heq; subst. split; [done |].
      exists key, mv. split; [apply list_elem_of_here | done]. }
    apply elem_of_cons in Hin as [Heq | Hin]; [discriminate |].
    destruct (IH _ Hin) as (Hu & k & m & Hm & Hnu).
    apply lookup_insert_None in Hu as [Hu _].
    split; [done |]. exists k, m. split; [by apply list_elem_of_further | done].
Qed.

Lemma runs_put_facts metadata c w r c' w' evs :
  runs metadata c w r c' w' evs ->
  forall v a, PutCall v a ∈ evs ->
    c !! v = None /\ syntax_error v = None
    /\ c' !! v = Some {| re_addr := a; re_text := v |}
    /\ CompileCall v ∈ evs.
Proof.
  induction 1 as [| key mv rest c w r c' w' evs Hb Hr IH | | |
                  key mv rest c w v cause Hn Hc Hs
                 | key mv rest c w v r c' w' evs Hn Hc Hs Hr IH];
    intros u a Hin.
  - by apply elem_of_nil in Hin.
  - auto.
  - by apply elem_of_nil in Hin.
  - by apply elem_of_nil in Hin.
  - apply list_elem_of_singleton in Hin. discriminate.
  - apply elem_of_cons in Hin as [Heq | Hin]; [discriminate |].
    apply elem_of_cons in Hin as [Heq | Hin].
    + inversion Heq; subst. repeat split; auto.
      * eapply runs_mono; [exact Hr |]. apply lookup_insert_eq.
      * apply list_elem_of_here.
    + destruct (IH _ _ Hin) as (Hu & Hsu & Hcu & Hcomp).
      apply lookup_insert_None in Hu as [Hu _].
      repeat split; auto.
      by do 2 apply list_elem_of_further.
Qed.

Lemma runs_cached_silent metadata c w r c' w' evs :
  runs metadata c w r c' w' evs ->
  forall text m, c !! text = Some m ->
    count_events (is_put text) evs = 0
    /\ count_events (is_compile text) evs = 0.
Proof.
  induction 1 as [| key mv rest c w r c' w' evs Hb Hr IH | | |
                  key mv rest c w v cause Hn Hc Hs
                 | key mv rest c w v r c' w' evs Hn Hc Hs Hr IH];
    intros text m Hm; simpl; auto.
  - eauto.
  - destruct (String.eqb_spec v text) as [-> | Hne]; [congruence | done].
  - destruct (String.eqb_spec v text) as [-> | Hne]; [congruence |].
    apply (IH text m). by rewrite lookup_insert_ne.
Qed.


Lemma runs_frame metadata c w r c' w' evs :
  runs metadata c w r c' w' evs ->
  forall text m, c' !! text = Some m ->
    c !! text = Some m
    \/ (PutCall text (re_addr m) ∈ evs /\ re_text m = text).
Proof.
  induction 1 as [| key mv rest c w r c' w' evs Hb Hr IH | | |
                  key mv rest c w v cause Hn Hc Hs
                 | key mv rest c w v r c' w' evs Hn Hc Hs Hr IH];
    intros text m Hm; auto.
  destruct (IH _ _ Hm) as [Hold | [Hput Htext]].
  - destruct (decide (v = text)) as [-> | Hne].
    + rewrite lookup_insert_eq in Hold. inversion Hold; subst. right.
      split; [| done]. apply list_elem_of_further, list_elem_of_here.
    + rewrite lookup_insert_ne in Hold by done. by left.
  - right. split; [| done]. by do 2 apply list_elem_of_further.
Qed.

Lemma runs_reject_facts metadata c w r c' w' evs :
  runs metadata c w r c' w' evs ->
  forall v cause, CompileCall v ∈ evs -> syntax_error v = Some cause ->
    r = Returned (Some (err_invalid_regex v cause))
    /\ c' !! v = None
    /\ count_events (is_put v) evs = 0.
Proof.
  induction 1 as [| key mv rest c w r c' w' evs Hb Hr IH | | |
                  key mv rest c w v cause Hn Hc Hs
                 | key mv rest c w v r c' w' evs Hn Hc Hs Hr IH];
    intros u cu Hin Hsu.
  - by apply elem_of_nil in Hin.
  - eauto.
  - by apply elem_of_nil in Hin.
  - by apply elem_of_nil in Hin.
  - apply list_elem_of_singleton in Hin. inversion Hin; subst.
    rewrite Hs in Hsu. inversion Hsu; subst. auto.
  - apply elem_of_cons in Hin as [Heq | Hin].
    { inversion Heq; subst. congruence. }
    apply elem_of_cons in Hin as [Heq | Hin]; [discriminate |].
    destruct (IH _ _ Hin Hsu) as (Hr' & Hc' & Hcount).
    repeat split; auto. simpl.
    destruct (String.eqb_spec v u) as [-> | Hne]; [congruence | done].
Qed.


Lemma count_events_zero p evs e :
  count_events p evs = 0 -> e ∈ evs -> p e = false.
Proof.
  induction evs as [| x evs IH]; simpl; intros Hc Hin.
  - by apply elem_of_nil in Hin.
  - apply elem_of_cons in Hin as [-> | Hin].
    + destruct (p x); [lia | done].
    + apply IH; [destruct (p x); lia | done].
Qed.

Lemma count_events_pos p evs e :
  e ∈ evs -> p e = true -> 1 <= count_events p evs.
Proof.
  induction evs as [| x evs IH]; simpl; intros Hin Hp.
  - by apply elem_of_nil in Hin.
  - apply elem_of_cons in Hin as [<- | Hin]; [rewrite Hp; lia |].
    specialize (IH Hin Hp). lia.
Qed.

Lemma range_metadata_app pre : forall post c w,
  range_metadata (pre ++ post) c w =
  match range_metadata pre c w with
  | (Returned None, c1, w1) => range_metadata post c1 w1
  | stop => stop
  end.
Proof.
  induction pre as [| [key mv] pre IH]; intros post c w; simpl; [done |].
  destruct (loop_body mv c w) as [[[| err | msg] c1] w1]; auto.
Qed.

Lemma buildCacheFromMatcher_range metadata c w :
  buildCacheFromMatcher metadata c w = range_metadata metadata c w.
Proof. by destruct metadata. Qed.


End Build.

Section BuildClaims.

Context `{RegexEngine}.

Lemma loop_body_compile metaValue v c w :
  needs_compile metaValue v ->
  loop_body metaValue c w =
  match c !! v with
  | Some _ => (Continue, c, w)
  | None =>
      match syntax_error v with
      | Some cause =>
          (Return (err_invalid_regex v cause), c, log (CompileCall v) w)
      | None =>
          (Continue, <[v := {| re_addr := next_addr w; re_text := v |}]> c,
           compiled_world v w)
      end
  end.
Proof.
  intros (mv & -> & Hty & Hvt & Hv & Hne).
  unfold loop_body, GetRegexMatcher, regexp_Compile, PutRegexMatcher. simpl.
  rewrite Hv, Hty, Hvt. simpl.
  destruct (String.eqb_spec v MatchAll) as [| _]; [done |].
  destruct (c !! v) eqn:Hc; [done |].
  destruct (syntax_error v); [done |]. simpl.
  unfold compiled_world, log. simpl. by rewrite <- app_assoc.
Qed.

Lemma loop_body_empty_variable mv c w :
  ms_ValueType mv = MatchString_VARIABLE ->
  StringValue_GetValue (ms_Value mv) = "" ->
  loop_body (Some mv) c w = (Return err_empty_variable, c, w).
Proof.
  intros Hvt Hv. unfold loop_body. simpl. by rewrite Hv, Hvt.
Qed.

Lemma loop_body_wildcard metaValue c w :
  StringValue_GetValue (MatchString_GetValue metaValue) = MatchAll ->
  loop_body metaValue c w = (Continue, c, w).
Proof. intros Hv. unfold loop_body. by rewrite Hv. Qed.

Lemma loop_body_exact mv c w :
  ms_Type mv = MatchString_EXACT ->
  exists k, loop_body (Some mv) c w = (k, c, w).
Proof.
  intros Hty. unfold loop_body. simpl. rewrite Hty.
  destruct (String.eqb _ MatchAll); [eauto |].
  destruct (_ && _); eauto.
Qed.

Lemma log_changes_world e w : log e w <> w.
Proof.
  intros Heq. apply (f_equal (fun x => length (trace x))) in Heq.
  simpl in Heq. rewrite length_app in Heq. simpl in Heq. lia.
Qed.

Lemma compiled_world_changes v w : compiled_world v w <> w.
Proof.
  intros Heq. apply (f_equal next_addr) in Heq. simpl in Heq. lia.
Qed.

(** After a run that returned nil, every entry that needs a compiled matcher
    has one in the cache. *)
Lemma runs_success_cached metadata c w r c' w' evs :
  runs metadata c w r c' w' evs ->
  r = Returned None ->
  forall key metaValue v,
    (key, metaValue) ∈ metadata -> needs_compile metaValue v ->
    exists m, c' !! v = Some m.
Proof.
  induction 1 as [| key mv rest c w r c' w' evs Hb Hr IH | | |
                  key mv rest c w v cause Hn Hc Hs
                 | key mv rest c w v r c' w' evs Hn Hc Hs Hr IH];
    intros Hret k0 m0 u Hin Hnu; try discriminate.
  - by apply elem_of_nil in Hin.
  - apply elem_of_cons in Hin as [Heq | Hin]; [| eauto].
    inversion Heq; subst.
    rewrite (loop_body_compile _ _ _ _ Hnu) in Hb.
    destruct (c !! u) as [m |] eqn:Hcu.
    + exists m. by eapply runs_mono.
    + destruct (syntax_error u); inversion Hb.
      exfalso. by eapply compiled_world_changes.
  - apply elem_of_cons in Hin as [Heq | Hin]; [| eauto].
    inversion Heq; subst.
    destruct Hn as (mv1 & Hmv1 & _ & _ & Hv1 & _).
    destruct Hnu as (mv2 & Hmv2 & _ & _ & Hv2 & _).
    assert (u = v) as -> by congruence.
    eexists. eapply runs_mono; [exact Hr |]. apply lookup_insert_eq.
Qed.

(** C3 (as amended): an entry whose value kind is Variable and whose value is
    empty makes the build fail whatever its match type: the turn of the loop
    that visits it returns the error of the empty variable and touches
    neither the cache nor the world; a build over a map that holds such an
    entry never returns nil; and when the entries visited before it ended no
    build, the build returns that very error, with the cache and the world as
    those entries left them. *)
Theorem empty_variable_fails_build pre key mv post c w :
  ms_ValueType mv = MatchString_VARIABLE ->
  StringValue_GetValue (ms_Value mv) = "" ->
  (forall c0 w0, loop_body (Some mv) c0 w0 = (Return err_empty_variable, c0, w0))
  /\ fst (fst (buildCacheFromMatcher (pre ++ (key, Some mv) :: post) c w))
       <> Returned None
  /\ (forall c1 w1,
        range_metadata pre c w = (Returned None, c1, w1) ->
        buildCacheFromMatcher (pre ++ (key, Some mv) :: post) c w
        = (Returned (Some err_empty_variable), c1, w1)).
Proof.
  intros Hvt Hv.
  assert (Hbody : forall c0 w0,
    loop_body (Some mv) c0 w0 = (Return err_empty_variable, c0, w0))
    by (intros; by apply loop_body_empty_variable).
  split; [exact Hbody |].
  rewrite buildCacheFromMatcher_range, range_metadata_app.
  split.
  - destruct (range_metadata pre c w) as [[[[e |] | msg] c1] w1]; simpl;
      try discriminate.
    rewrite Hbody. simpl. discriminate.
  - intros c1 w1 ->. simpl. by rewrite Hbody.
Qed.


Lemma range_metadata_events metadata c w r c' w' :
  range_metadata metadata c w = (r, c', w') ->
  runs metadata c w r c' w' (events_since w w').
Proof.
  rewrite <- buildCacheFromMatcher_range. apply buildCacheFromMatcher_runs.
Qed.

Lemma err_invalid_regex_not_empty_variable v cause :
  err_invalid_regex v cause <> err_empty_variable.
Proof. unfold err_invalid_regex, err_empty_variable. simpl. discriminate. Qed.

(** C5: when the engine refuses a text, a build that hands this text to the
    engine returns the error of the invalid regex, whose message holds the
    text and the cause of the engine, and is not the error of the empty
    variable; the cache the build leaves has no entry for the text and the
    build never put one. The engine is reached as soon as the visit arrives,
    with no earlier return, at a regex entry with this text that the cache
    does not hold. *)
Theorem compile_failure_fails_build metadata c w v cause :
  syntax_error v = Some cause ->
  let '(r, c', w') := buildCacheFromMatcher metadata c w in
  (CompileCall v ∈ events_since w w' ->
     r = Returned (Some (err_invalid_regex v cause))
     /\ c' !! v = None
     /\ count_events (is_put v) (events_since w w') = 0)
  /\ err_invalid_regex v cause
     = "invalid regex expression " +:+ v +:+ ", error is " +:+ cause
  /\ err_invalid_regex v cause <> err_empty_variable
  /\ (forall pre key metaValue post c1 w1,
        metadata = pre ++ (key, metaValue) :: post ->
        range_metadata pre c w = (Returned None, c1, w1) ->
        needs_compile metaValue v -> c1 !! v = None ->
        (r, c', w')
        = (Returned (Some (err_invalid_regex v cause)), c1,
           log (CompileCall v) w1)).
Proof.
  intros Hs.
  destruct (buildCacheFromMatcher metadata c w) as [[r c'] w'] eqn:Hb.
  pose proof (buildCacheFromMatcher_runs _ _ _ _ _ _ Hb) as Hr.
  split; [| split; [done | split]].
  - intros Hin. by eapply runs_reject_facts.
  - apply err_invalid_regex_not_empty_variable.
  - intros pre key metaValue post c1 w1 -> Hpre Hneed Hc1.
    rewrite buildCacheFromMatcher_range, range_metadata_app, Hpre in Hb.
    simpl in Hb. rewrite (loop_body_compile _ _ _ _ Hneed), Hc1, Hs in Hb.
    by inversion Hb.
Qed.

(** C6: the engine is called, and the cache is written, only for entries of
    regex type and text value kind whose value is not the wildcard: every
    compile call and every put of a build has such an entry of the map behind
    it, every entry of the cache the build leaves was there before or comes
    from such an entry, so the wildcard is never compiled and never enters
    the cache; the turn of the loop on an entry whose value is the wildcard,
    or whose type is exact, leaves the cache and the world as they are. *)
Theorem only_regex_text_compiled metadata c w :
  let '(r, c', w') := buildCacheFromMatcher metadata c w in
  (forall v, CompileCall v ∈ events_since w w' ->
     v <> MatchAll
     /\ exists key metaValue,
          (key, metaValue) ∈ metadata /\ needs_compile metaValue v)
  /\ (forall v a, PutCall v a ∈ events_since w w' ->
        v <> MatchAll
        /\ exists key metaValue,
             (key, metaValue) ∈ metadata /\ needs_compile metaValue v)
  /\ (forall v m, c' !! v = Some m ->
        c !! v = Some m
        \/ (v <> MatchAll
            /\ exists key metaValue,
                 (key, metaValue) ∈ metadata /\ needs_compile metaValue v))
  /\ (c !! MatchAll = None -> c' !! MatchAll = None)
  /\ (forall metaValue c0 w0,
        StringValue_GetValue (MatchString_GetValue metaValue) = MatchAll ->
        loop_body metaValue c0 w0 = (Continue, c0, w0))
  /\ (forall mv c0 w0,
        ms_Type mv = MatchString_EXACT ->
        exists k, loop_body (Some mv) c0 w0 = (k, c0, w0)).
Proof.
  destruct (buildCacheFromMatcher metadata c w) as [[r c'] w'] eqn:Hb.
  pose proof (buildCacheFromMatcher_runs _ _ _ _ _ _ Hb) as Hr.
  assert (Hcomp : forall v, CompileCall v ∈ events_since w w' ->
            v <> MatchAll
            /\ exists key metaValue,
                 (key, metaValue) ∈ metadata /\ needs_compile metaValue v).
  { intros v Hin.
    destruct (runs_compile_origin _ _ _ _ _ _ _ Hr _ Hin)
      as (_ & key & mv & Hm & Hn).
    split; [| eauto]. by destruct Hn as (? & _ & _ & _ & _ & Hne). }
  assert (Hput : forall v a, PutCall v a ∈ events_since w w' ->
            v <> MatchAll
            /\ exists key metaValue,
                 (key, metaValue) ∈ metadata /\ needs_compile metaValue v).
  { intros v a Hin. apply Hcomp.
    by destruct (runs_put_facts _ _ _ _ _ _ _ Hr _ _ Hin) as (_ & _ & _ & ?). }
  assert (Hframe : forall v m, c' !! v = Some m ->
            c !! v = Some m
            \/ (v <> MatchAll
                /\ exists key metaValue,
                     (key, metaValue) ∈ metadata /\ needs_compile metaValue v)).
  { intros v m Hm.
    destruct (runs_frame _ _ _ _ _ _ _ Hr _ _ Hm) as [Hold | [Hin _]];
      [by left | right; by eapply Hput]. }
  repeat split; try (intros; eauto; fail).
  - by apply Hcomp.
  - by apply Hcomp.
  - by eapply Hput.
  - by eapply Hput.
  - intros Hc. destruct (c' !! MatchAll) as [m |] eqn:Hm; [| done].
    destruct (Hframe _ _ Hm) as [Hold | [Hne _]]; congruence.
  - intros. by apply loop_body_wildcard.
  - intros. by apply loop_body_exact.
Qed.

(** C10: a build that returns an error does not undo what it wrote: whatever
    the build returns, every entry the cache held before is still there and
    every matcher the build put is in the cache it leaves; when the visit
    ends at an entry that makes the loop return an error, the cache the build
    leaves is the cache the entries visited before it built. *)
Theorem failed_build_keeps_cache metadata c w :
  let '(r, c', w') := buildCacheFromMatcher metadata c w in
  (forall text m, c !! text = Some m -> c' !! text = Some m)
  /\ (forall v a, PutCall v a ∈ events_since w w' ->
        c' !! v = Some {| re_addr := a; re_text := v |})
  /\ (forall pre key metaValue post c1 w1 err c2 w2,
        metadata = pre ++ (key, metaValue) :: post ->
        range_metadata pre c w = (Returned None, c1, w1) ->
        loop_body metaValue c1 w1 = (Return err, c2, w2) ->
        r = Returned (Some err) /\ c' = c1
        /\ (forall v a, PutCall v a ∈ events_since w w1 ->
              c' !! v = Some {| re_addr := a; re_text := v |})).
Proof.
  destruct (buildCacheFromMatcher metadata c w) as [[r c'] w'] eqn:Hb.
  pose proof (buildCacheFromMatcher_runs _ _ _ _ _ _ Hb) as Hr.
  split; [| split].
  - intros text m. by eapply runs_mono.
  - intros v a Hin.
    by destruct (runs_put_facts _ _ _ _ _ _ _ Hr _ _ Hin) as (_ & _ & ? & _).
  - intros pre key metaValue post c1 w1 err c2 w2 -> Hpre Hbody.
    rewrite buildCacheFromMatcher_range, range_metadata_app, Hpre in Hb.
    simpl in Hb. rewrite Hbody in Hb. inversion Hb; subst.
    assert (c' = c1) as ->.
    { destruct (loop_body_cases _ _ _ _ _ _ Hbody)
        as [[? _] | [(? & ? & _ & _ & _ & _ & ? & _)
                    | (? & _ & _ & _ & ? & _)]]; [done | done | discriminate]. }
    repeat split; auto.
    intros v a Hin.
    pose proof (range_metadata_events _ _ _ _ _ _ Hpre) as Hrpre.
    by destruct (runs_put_facts _ _ _ _ _ _ _ Hrpre _ _ Hin) as (_ & _ & ? & _).
Qed.

End BuildClaims.

(** ** The rule document *)

Section DocumentClaims.

Context {Message Raw : Type} `{Assistants Message Raw}.

(** C1: the document built from a nil response is the zero document: it is
    not initialized and its namespace and service are empty. Validation of
    that document calls SetDefault on the nil assistant: the call panics. *)
Theorem nil_source_validate_panics (w : World) :
  let zero : ServiceRuleInProto Message Raw := zero_ServiceRuleInProto in
  NewServiceRuleInProto None = Returned zero
  /\ IsInitialized zero = false
  /\ GetNamespace zero = Returned ""
  /\ GetService zero = Returned ""
  /\ ValidateAndBuildCache zero w = (Panicked nil_dereference, zero, w).
Proof. repeat split. Qed.

(** C2 (as amended): a call of ValidateAndBuildCache that returns an error
    records exactly that error in the document, in place of any error
    recorded before; a call that returns nil leaves the recorded error as it
    was, so the document built by the constructor, which has none, still
    has none. *)
Theorem validate_error_recorded (s : ServiceRuleInProto Message Raw)
  (w : World) :
  let '(r, s', w') := ValidateAndBuildCache s w in
  match r with
  | Returned (Some err) => GetValidateError s' = Some err
  | Returned None => GetValidateError s' = GetValidateError s
  | Panicked _ => GetValidateError s' = GetValidateError s
  end.
Proof.
  unfold ValidateAndBuildCache.
  destruct (assistant s) as [a |]; [| done].
  destruct (Validate a _ _ w) as [[[[err |] | msg] c] w1]; done.
Qed.

(** C7 (as amended): the constructor returns a document for a nil response,
    and for a response that carries a service and whose kind has an assistant
    in the dispatch table; for a response whose kind has no assistant in the
    table it panics. *)
Theorem construction_outcome (resp : option (DiscoverResponse Raw)) :
  (resp = None ->
     NewServiceRuleInProto resp
     = Returned (zero_ServiceRuleInProto : ServiceRuleInProto Message Raw))
  /\ (forall r svc,
        resp = Some r -> resp_Service r = Some svc ->
        is_Some (eventTypeToAssistant (GetEventType (resp_Type r))) ->
        exists doc, NewServiceRuleInProto resp = Returned doc)
  /\ (forall r,
        resp = Some r ->
        eventTypeToAssistant (GetEventType (resp_Type r)) = None ->
        NewServiceRuleInProto resp = Panicked nil_dereference).
Proof.
  split; [by intros -> | split].
  - intros r svc -> Hsvc [a Ha]. simpl. rewrite Hsvc, Ha.
    destruct (ParseRuleValue a r) as [value rev]. eauto.
  - intros r -> Hnone. simpl. rewrite Hnone. by destruct (resp_Service r).
Qed.

(** C8 (as amended): for a response that carries a service and whose kind has
    an assistant in the dispatch table, the constructor returns a document
    that is initialized, has the namespace and the name of that service, the
    kind of the response, the payload and the revision the assistant of that
    kind parsed, a new empty cache and no validation error. *)
Theorem constructed_document (r : DiscoverResponse Raw) (svc : pbService)
  (a : ServiceRuleAssistant Message Raw) :
  resp_Service r = Some svc ->
  eventTypeToAssistant (GetEventType (resp_Type r)) = Some a ->
  exists doc,
    NewServiceRuleInProto (Some r) = Returned doc
    /\ IsInitialized doc = true
    /\ GetNamespace doc = Returned (StringValue_GetValue (pb_Namespace svc))
    /\ GetService doc = Returned (StringValue_GetValue (pb_Name svc))
    /\ GetType doc = GetEventType (resp_Type r)
    /\ assistant doc = Some a
    /\ GetValue doc = fst (ParseRuleValue a r)
    /\ GetRevision doc = snd (ParseRuleValue a r)
    /\ GetRuleCache doc = Some NewRuleCache
    /\ (forall text, NewRuleCache !! text = None)
    /\ GetValidateError doc = None.
Proof.
  intros Hsvc Ha. simpl. rewrite Hsvc, Ha.
  destruct (ParseRuleValue a r) as [value rev]. eexists. split; [done |].
  repeat split.
Qed.

End DocumentClaims.

(** ** The properties on the sample engine and the sample assistant *)

Example build_foo :
  let '(r, c, w) :=
    @buildCacheFromMatcher sample_engine [("k", regex_text "^foo.*")]
      NewRuleCache world0 in
  r = Returned None
  /\ c !! "^foo.*" = Some {| re_addr := 0; re_text := "^foo.*" |}
  /\ trace w = [CompileCall "^foo.*"; PutCall "^foo.*" 0].
Proof. vm_compute. auto. Qed.

Example build_unclosed :
  let '(r, c, w) :=
    @buildCacheFromMatcher sample_engine [("k", regex_text "(unclosed")]
      NewRuleCache world0 in
  r = Returned (Some (err_invalid_regex "(unclosed" unclosed_cause))
  /\ c !! "(unclosed" = None
  /\ trace w = [CompileCall "(unclosed"].
Proof. vm_compute. auto. Qed.

Lemma empty_variable_fails_build_witness :
  ms_ValueType empty_variable = MatchString_VARIABLE
  /\ StringValue_GetValue (ms_Value empty_variable) = ""
  /\ @buildCacheFromMatcher sample_engine
       ([("a", regex_text "^foo.*")] ++ ("b", Some empty_variable) :: [])
       NewRuleCache world0
     = (Returned (Some err_empty_variable),
        <["^foo.*" := {| re_addr := 0; re_text := "^foo.*" |}]> NewRuleCache,
        compiled_world "^foo.*" world0).
Proof.
  split; [reflexivity | split; [reflexivity |]].
  apply (@empty_variable_fails_build sample_engine
           [("a", regex_text "^foo.*")] "b" empty_variable []
           NewRuleCache world0 eq_refl eq_refl).
  reflexivity.
Defined.

(** C3, the claim as stated fails: the map holds an entry of variable kind
    with an empty value, the visit meets the invalid pattern first, and the
    build returns the error of the invalid regex. *)
Lemma empty_variable_not_always_reported :
  ("b", Some empty_variable) ∈ unclosed_then_empty_variable
  /\ ms_ValueType empty_variable = MatchString_VARIABLE
  /\ ms_Value empty_variable = Some ""
  /\ fst (fst (@buildCacheFromMatcher sample_engine
                 unclosed_then_empty_variable NewRuleCache world0))
     = Returned (Some (err_invalid_regex "(unclosed" unclosed_cause))
  /\ fst (fst (@buildCacheFromMatcher sample_engine
                 unclosed_then_empty_variable NewRuleCache world0))
     <> Returned (Some err_empty_variable).
Proof.
  split; [apply list_elem_of_further, list_elem_of_here |].
  split; [reflexivity | split; [reflexivity |]].
  split; [vm_compute; reflexivity | vm_compute; discriminate].
Defined.



Lemma compile_failure_fails_build_witness :
  @syntax_error sample_engine "(unclosed" = Some unclosed_cause
  /\ (let '(r, c', w') :=
        @buildCacheFromMatcher sample_engine foo_then_unclosed
          NewRuleCache world0 in
      CompileCall "(unclosed" ∈ events_since world0 w'
      /\ r = Returned (Some (err_invalid_regex "(unclosed" unclosed_cause))
      /\ c' !! "(unclosed" = None).
Proof.
  split; [reflexivity |].
  generalize (@compile_failure_fails_build sample_engine foo_then_unclosed
                NewRuleCache world0 "(unclosed" unclosed_cause eq_refl).
  destruct (@buildCacheFromMatcher sample_engine foo_then_unclosed
              NewRuleCache world0) as [[r c'] w'] eqn:E.
  intros (Hfail & _).
  assert (Hin : CompileCall "(unclosed" ∈ events_since world0 w').
  { vm_compute in E. injection E as _ _ <-.
    do 2 apply list_elem_of_further. apply list_elem_of_here. }
  destruct (Hfail Hin) as (Hr & Hc & _). auto.
Defined.

Lemma only_regex_text_compiled_witness :
  let '(r, c', w') :=
    @buildCacheFromMatcher sample_engine wildcard_exact_foo
      NewRuleCache world0 in
  NewRuleCache !! MatchAll = (None : option Regexp)
  /\ c' !! MatchAll = None
  /\ events_since world0 w' = [CompileCall "^foo.*"; PutCall "^foo.*" 0].
Proof.
  generalize (@only_regex_text_compiled sample_engine wildcard_exact_foo
                NewRuleCache world0).
  destruct (@buildCacheFromMatcher sample_engine wildcard_exact_foo
              NewRuleCache world0) as [[r c'] w'] eqn:E.
  intros (_ & _ & _ & Hwild & _).
  split; [reflexivity | split; [apply Hwild; reflexivity |]].
  vm_compute in E. injection E as _ _ <-. reflexivity.
Defined.

Lemma failed_build_keeps_cache_witness :
  let '(r, c', w') :=
    @buildCacheFromMatcher sample_engine foo_then_unclosed
      NewRuleCache world0 in
  r = Returned (Some (err_invalid_regex "(unclosed" unclosed_cause))
  /\ PutCall "^foo.*" 0 ∈ events_since world0 w'
  /\ c' !! "^foo.*" = Some {| re_addr := 0; re_text := "^foo.*" |}.
Proof.
  generalize (@failed_build_keeps_cache sample_engine foo_then_unclosed
                NewRuleCache world0).
  destruct (@buildCacheFromMatcher sample_engine foo_then_unclosed
              NewRuleCache world0) as [[r c'] w'] eqn:E.
  intros (_ & Hput & _).
  assert (Hin : PutCall "^foo.*" 0 ∈ events_since world0 w').
  { vm_compute in E. injection E as _ _ <-.
    apply list_elem_of_further, list_elem_of_here. }
  split; [| split; [exact Hin | exact (Hput _ _ Hin)]].
  vm_compute in E. by injection E as <- _ _.
Defined.

(** C2, the claim as stated fails: the first validation of the document
    fails and records its error; after the owner repaired the message, the
    second validation returns nil, and the document still reports the error
    of the first. *)
Lemma later_success_keeps_error :
  @NewServiceRuleInProto _ _ (@sample_assistants sample_engine)
    (Some revalidation_response) = Returned revalidation_constructed
  /\ fst (fst revalidation_first)
     = Returned (Some (err_invalid_regex "(unclosed" unclosed_cause))
  /\ fst (fst revalidation_second) = Returned None
  /\ GetValidateError (snd (fst revalidation_second))
     = Some (err_invalid_regex "(unclosed" unclosed_cause)
  /\ GetValidateError (snd (fst revalidation_second)) <> None.
Proof.
  split; [reflexivity |].
  split; [vm_compute; reflexivity |].
  split; [vm_compute; reflexivity |].
  split; [vm_compute; reflexivity | vm_compute; discriminate].
Defined.

Lemma construction_outcome_witness :
  resp_Service revalidation_response
  = Some {| pb_Namespace := Some "Test"; pb_Name := Some "svc" |}
  /\ is_Some (@eventTypeToAssistant _ _ (@sample_assistants sample_engine)
                (GetEventType (resp_Type revalidation_response)))
  /\ exists doc,
       @NewServiceRuleInProto _ _ (@sample_assistants sample_engine)
         (Some revalidation_response) = Returned doc.
Proof.
  split; [reflexivity |].
  assert (Hkind : is_Some (@eventTypeToAssistant _ _
                             (@sample_assistants sample_engine)
                             (GetEventType (resp_Type revalidation_response))))
    by (eexists; reflexivity).
  split; [exact Hkind |].
  exact (proj1 (proj2 (@construction_outcome _ _
                         (@sample_assistants sample_engine)
                         (Some revalidation_response)))
           revalidation_response _ eq_refl eq_refl Hkind).
Defined.

(** C7, the claim as stated fails: the kind of the response has no assistant
    in the dispatch table, and the constructor panics instead of returning a
    document. *)
Lemma unknown_kind_construction_panics :
  @NewServiceRuleInProto _ _ (@sample_assistants sample_engine)
    (Some (sample_response (DiscoverResponse_OTHER 1) []))
  = Panicked nil_dereference
  /\ ~ (exists doc,
          @NewServiceRuleInProto _ _ (@sample_assistants sample_engine)
            (Some (sample_response (DiscoverResponse_OTHER 1) []))
          = Returned doc).
Proof.
  split; [reflexivity |]. intros [doc Hdoc]. discriminate Hdoc.
Defined.

Lemma constructed_document_witness :
  exists doc,
    @NewServiceRuleInProto _ _ (@sample_assistants sample_engine)
      (Some revalidation_response) = Returned doc
    /\ IsInitialized doc = true
    /\ GetNamespace doc = Returned "Test"
    /\ GetService doc = Returned "svc"
    /\ GetRevision doc = "rev-1"
    /\ GetRuleCache doc = Some NewRuleCache
    /\ GetValidateError doc = None.
Proof.
  destruct (@constructed_document _ _ (@sample_assistants sample_engine)
              revalidation_response
              {| pb_Namespace := Some "Test"; pb_Name := Some "svc" |}
              (@sample_assistant sample_engine) eq_refl eq_refl)
    as (doc & Hnew & Hinit & Hns & Hsvc & _ & _ & _ & Hrev & Hcache & _ & Herr).
  exists doc. repeat split; assumption.
Defined.

(** C8, the claim as stated fails: the response is not nil, its kind has no
    assistant in the dispatch table, and the constructor yields no
    document. *)
Lemma unknown_kind_no_document :
  ~ (exists doc,
       @NewServiceRuleInProto _ _ (@sample_assistants sample_engine)
         (Some (sample_response (DiscoverResponse_OTHER 7)
                  [[("k", regex_text "^foo.*")]]))
       = Returned doc
       /\ IsInitialized doc = true).
Proof.
  intros (doc & Hdoc & _). discriminate Hdoc.
Defined.

(** ** Further properties of the build *)

Section BuildOrder.

Context `{RegexEngine}.

Lemma loop_body_accepted metaValue c w :
  entry_accepted c metaValue = true <->
  exists c' w', loop_body metaValue c w = (Continue, c', w').
Proof.
  unfold entry_accepted, loop_body, GetRegexMatcher, regexp_Compile,
    PutRegexMatcher.
  destruct (String.eqb _ MatchAll); [split; eauto |].
  destruct metaValue as [mv |]; simpl;
    [| split; [discriminate | intros (? & ? & [=])]].
  destruct (_ && _); [split; [discriminate | intros (? & ? & [=])] |].
  destruct (_ || _); [split; eauto |].
  destruct (c !! _); [split; eauto |].
  destruct (syntax_error _); simpl.
  - split; [discriminate | intros (? & ? & [=])].
  - split; eauto.
Qed.

Lemma entry_accepted_insert c u m metaValue :
  c !! u = None -> syntax_error u = None ->
  entry_accepted (<[u := m]> c) metaValue = entry_accepted c metaValue.
Proof.
  intros Hc Hs. unfold entry_accepted.
  destruct (String.eqb _ MatchAll); [done |].
  destruct metaValue as [mv |]; [| done]. simpl.
  destruct (_ && _); [done |]. destruct (_ || _); [done |].
  destruct (decide (u = StringValue_GetValue (ms_Value mv))) as [<- | Hne].
  - by rewrite lookup_insert_eq, Hc, Hs.
  - by rewrite lookup_insert_ne.
Qed.

Lemma entry_accepted_runs metadata c w r c' w' evs :
  runs metadata c w r c' w' evs ->
  forall metaValue, entry_accepted c' metaValue = entry_accepted c metaValue.
Proof.
  induction 1 as [| | | | | key mv rest c w v r c' w' evs Hn Hc Hs Hr IH];
    intros e; auto.
  rewrite IH. by apply entry_accepted_insert.
Qed.

Lemma range_metadata_success metadata : forall c w,
  fst (fst (range_metadata metadata c w)) = Returned None <->
  Forall (fun e => entry_accepted c (snd e) = true) metadata.
Proof.
  induction metadata as [| [key mv] rest IH]; intros c w; simpl.
  - split; [constructor | done].
  - rewrite Forall_cons. simpl.
    destruct (loop_body mv c w) as [[k c1] w1] eqn:Hb.
    pose proof (loop_body_accepted mv c w) as Hacc. rewrite Hb in Hacc.
    destruct k as [| err | msg]; simpl.
    + rewrite IH.
      assert (Hsame : forall e, entry_accepted c1 e = entry_accepted c e).
      { intros e.
        destruct (loop_body_cases _ _ _ _ _ _ Hb)
          as [[-> _] | [(v & cause & _ & _ & _ & [=] & _)
                       | (v & _ & Hc & Hs & _ & -> & _)]]; [done |].
        by apply entry_accepted_insert. }
      split.
      * intros Hall. split; [apply Hacc; eauto |].
        eapply Forall_impl; [exact Hall |]. simpl. intros e He.
        by rewrite <- Hsame.
      * intros [_ Hall]. eapply Forall_impl; [exact Hall |].
        simpl. intros e He. by rewrite Hsame.
    + split; [discriminate |]. intros [Ha _].
      apply Hacc in Ha as (? & ? & [=]).
    + split; [discriminate |]. intros [Ha _].
      apply Hacc in Ha as (? & ? & [=]).
Qed.

Lemma buildCacheFromMatcher_success metadata c w :
  fst (fst (buildCacheFromMatcher metadata c w)) = Returned None <->
  Forall (fun e => entry_accepted c (snd e) = true) metadata.
Proof. rewrite buildCacheFromMatcher_range. apply range_metadata_success. Qed.

Lemma runs_success_keys metadata c w c' w' evs :
  runs metadata c w (Returned None) c' w' evs ->
  forall v,
    is_Some (c' !! v) <->
    is_Some (c !! v)
    \/ exists key metaValue,
         (key, metaValue) ∈ metadata /\ needs_compile metaValue v.
Proof.
  intros Hr v. split.
  - intros [m Hm].
    destruct (runs_frame _ _ _ _ _ _ _ Hr _ _ Hm) as [Hold | [Hput _]];
      [left; eauto |].
    destruct (runs_put_facts _ _ _ _ _ _ _ Hr _ _ Hput) as (_ & _ & _ & Hcomp).
    destruct (runs_compile_origin _ _ _ _ _ _ _ Hr _ Hcomp) as (_ & Horigin).
    by right.
  - intros [[m Hm] | (key & mv & Hin & Hn)].
    + exists m. by eapply runs_mono.
    + by eapply runs_success_cached.
Qed.

Lemma loop_body_settled c0 c1 w1 metaValue :
  entry_accepted c0 metaValue = true ->
  (forall v, needs_compile metaValue v -> is_Some (c1 !! v)) ->
  loop_body metaValue c1 w1 = (Continue, c1, w1).
Proof.
  unfold entry_accepted, loop_body, GetRegexMatcher. intros Hacc Hcached.
  destruct (String.eqb_spec
              (StringValue_GetValue (MatchString_GetValue metaValue)) MatchAll)
    as [| Hne]; [done |].
  destruct metaValue as [mv |]; [| discriminate]. simpl in *.
  destruct (_ && _); [discriminate |].
  destruct (ms_Type mv) eqn:Hty, (ms_ValueType mv) eqn:Hvt; simpl; try done.
  destruct (Hcached (StringValue_GetValue (ms_Value mv))) as [m ->]; [| done].
  exists mv. auto.
Qed.

Lemma range_metadata_silent metadata c w :
  (forall key metaValue,
     (key, metaValue) ∈ metadata -> loop_body metaValue c w = (Continue, c, w)) ->
  range_metadata metadata c w = (Returned None, c, w).
Proof.
  induction metadata as [| [key mv] rest IH]; intros Hall; simpl; [done |].
  rewrite (Hall key mv) by apply list_elem_of_here.
  apply IH. intros k m Hin. apply (Hall k m). by apply list_elem_of_further.
Qed.

Lemma loop_body_return metaValue c w err c' w' :
  loop_body metaValue c w = (Return err, c', w') ->
  (err = err_empty_variable
   /\ exists mv, metaValue = Some mv
        /\ ms_ValueType mv = MatchString_VARIABLE
        /\ StringValue_GetValue (ms_Value mv) = "")
  \/ (exists v cause, needs_compile metaValue v
        /\ syntax_error v = Some cause
        /\ err = err_invalid_regex v cause).
Proof.
  intros Hb.
  destruct (loop_body_cases _ _ _ _ _ _ Hb)
    as [[-> ->] | [(v & cause & Hn & _ & Hs & [= ->] & _)
                  | (v & _ & _ & _ & [=] & _)]]; [| right; eauto].
  left. unfold loop_body, GetRegexMatcher, regexp_Compile, PutRegexMatcher in Hb.
  destruct (String.eqb _ MatchAll); [discriminate |].
  destruct metaValue as [mv |]; [| discriminate]. simpl in Hb.
  destruct (ValueType_eqb (ms_ValueType mv) MatchString_VARIABLE) eqn:Hvt;
    simpl in Hb.
  - destruct (String.eqb_spec (StringValue_GetValue (ms_Value mv)) "")
      as [Hv |].
    + inversion Hb; subst. split; [done |]. exists mv.
      by destruct (ms_ValueType mv).
    + destruct (_ || _); [discriminate |].
      destruct (c !! _); [discriminate |].
      destruct (syntax_error _) eqn:Hs; [| discriminate].
      inversion Hb as [[He Hw]]. exfalso. by eapply log_changes_world.
  - destruct (_ || _); [discriminate |].
    destruct (c !! _); [discriminate |].
    destruct (syntax_error _) eqn:Hs; [| discriminate].
    inversion Hb as [[He Hw]]. exfalso. by eapply log_changes_world.
Qed.

Lemma loop_body_panic metaValue c w msg c' w' :
  loop_body metaValue c w = (Panic msg, c', w') ->
  metaValue = None /\ msg = nil_dereference.
Proof.
  unfold loop_body, GetRegexMatcher, regexp_Compile, PutRegexMatcher.
  destruct (String.eqb _ MatchAll); [discriminate |].
  destruct metaValue as [mv |]; [| by intros [= <- _ _]]. simpl.
  destruct (_ && _); [discriminate |]. destruct (_ || _); [discriminate |].
  destruct (c !! _); [discriminate |].
  destruct (syntax_error _); discriminate.
Qed.

End BuildOrder.

Section BuildExtras.

Context `{RegexEngine}.

Lemma runs_compile_bounds metadata c w r c' w' evs :
  runs metadata c w r c' w' evs ->
  (forall v, count_events (is_compile v) evs <= 1)
  /\ count_events is_compile_call evs <= length metadata
  /\ length evs <= 2 * length metadata.
Proof.
  induction 1 as [| key mv rest c w r c' w' evs Hb Hr IH | | |
                  key mv rest c w v cause Hn Hc Hs
                 | key mv rest c w v r c' w' evs Hn Hc Hs Hr IH]; simpl.
  - repeat split; auto.
  - destruct IH as (IH1 & IH2 & IH3). repeat split; auto; lia.
  - repeat split; auto; lia.
  - repeat split; auto; lia.
  - repeat split; try lia. intros u. destruct (String.eqb v u); lia.
  - destruct IH as (IH1 & IH2 & IH3). repeat split; try lia.
    intros u. destruct (String.eqb_spec v u) as [-> | Hne]; [| apply IH1].
    destruct (runs_cached_silent _ _ _ _ _ _ _ Hr u
                {| re_addr := next_addr w; re_text := u |}) as [_ ->];
      [apply lookup_insert_eq | lia].
Qed.

Lemma runs_provenance metadata c w r c' w' evs :
  runs metadata c w r c' w' evs ->
  match r with
  | Returned None => True
  | Returned (Some err) =>
      (err = err_empty_variable
       /\ exists key mv, (key, Some mv) ∈ metadata
            /\ ms_ValueType mv = MatchString_VARIABLE
            /\ StringValue_GetValue (ms_Value mv) = "")
      \/ (exists key metaValue v cause,
            (key, metaValue) ∈ metadata /\ needs_compile metaValue v
            /\ syntax_error v = Some cause
            /\ err = err_invalid_regex v cause)
  | Panicked msg =>
      msg = nil_dereference /\ exists key, (key, None) ∈ metadata
  end.
Proof.
  induction 1 as [| key mv rest c w r c' w' evs Hb Hr IH
                 | key mv rest c w err Hb | key mv rest c w msg Hb
                 | key mv rest c w v cause Hn Hc Hs
                 | key mv rest c w v r c' w' evs Hn Hc Hs Hr IH].
  - done.
  - destruct r as [[err |] | msg]; [| done |].
    + destruct IH as [(-> & k & m & Hin & Hm) | (k & m & v & cause & Hin & Hm)].
      * left. split; [done |]. exists k, m.
        split; [by apply list_elem_of_further | done].
      * right. exists k, m, v, cause.
        split; [by apply list_elem_of_further | done].
    + destruct IH as (-> & k & Hin). split; [done |]. exists k.
      by apply list_elem_of_further.
  - destruct (loop_body_return _ _ _ _ _ _ Hb)
      as [(-> & m & -> & Hm) | (v & cause & Hn & Hs & ->)].
    + left. split; [done |]. exists key, m. split; [apply list_elem_of_here | done].
    + right. exists key, mv, v, cause. split; [apply list_elem_of_here | done].
  - destruct (loop_body_panic _ _ _ _ _ _ Hb) as [-> ->].
    split; [done |]. exists key. apply list_elem_of_here.
  - right. exists key, mv, v, cause. split; [apply list_elem_of_here | done].
  - destruct r as [[err |] | msg]; [| done |].
    + destruct IH as [(-> & k & m & Hin & Hm) | (k & m & u & cu & Hin & Hm)].
      * left. split; [done |]. exists k, m.
        split; [by apply list_elem_of_further | done].
      * right. exists k, m, u, cu.
        split; [by apply list_elem_of_further | done].
    + destruct IH as (-> & k & Hin). split; [done |]. exists k.
      by apply list_elem_of_further.
Qed.

Lemma runs_keyed_by_text metadata c w r c' w' evs :
  runs metadata c w r c' w' evs -> keyed_by_text c -> keyed_by_text c'.
Proof.
  intros Hr Hk text m Hm.
  destruct (runs_frame _ _ _ _ _ _ _ Hr _ _ Hm) as [Hold | [_ Ht]];
    [by apply Hk | done].
Qed.

(** X1: the build returns nil exactly when every entry of the map passes the
    tests of the loop taken against the cache the build starts from: what the
    build stores on the way changes the verdict of no entry. *)
Theorem build_succeeds_iff_entries_accepted metadata c w :
  fst (fst (buildCacheFromMatcher metadata c w)) = Returned None <->
  Forall (fun e => entry_accepted c (snd e) = true) metadata.
Proof. apply buildCacheFromMatcher_success. Qed.

(** X2: the order of the visit changes neither whether the build returns nil
    nor, when it does, the texts the cache holds afterwards. *)
Theorem build_order_independent md1 md2 c w1 w2 :
  md1 ≡ₚ md2 ->
  let '(r1, c1, _) := buildCacheFromMatcher md1 c w1 in
  let '(r2, c2, _) := buildCacheFromMatcher md2 c w2 in
  (r1 = Returned None <-> r2 = Returned None)
  /\ (r1 = Returned None ->
      forall v, is_Some (c1 !! v) <-> is_Some (c2 !! v)).
Proof.
  intros Hperm.
  pose proof (buildCacheFromMatcher_success md1 c w1) as Hs1.
  pose proof (buildCacheFromMatcher_success md2 c w2) as Hs2.
  destruct (buildCacheFromMatcher md1 c w1) as [[r1 c1] w1'] eqn:Hb1.
  destruct (buildCacheFromMatcher md2 c w2) as [[r2 c2] w2'] eqn:Hb2.
  simpl in Hs1, Hs2.
  assert (Hiff : r1 = Returned None <-> r2 = Returned None).
  { rewrite Hs1, Hs2, !Forall_forall.
    split; intros Hall e He; apply Hall; [by rewrite Hperm | by rewrite <- Hperm]. }
  split; [exact Hiff |].
  intros Hr1 v. pose proof (proj1 Hiff Hr1) as Hr2. subst r1 r2.
  pose proof (buildCacheFromMatcher_runs _ _ _ _ _ _ Hb1) as R1.
  pose proof (buildCacheFromMatcher_runs _ _ _ _ _ _ Hb2) as R2.
  rewrite (runs_success_keys _ _ _ _ _ _ R1 v),
    (runs_success_keys _ _ _ _ _ _ R2 v).
  split; (intros [Hold | (k & m & Hin & Hn)]; [by left | right]);
    exists k, m; (split; [| done]); [by rewrite <- Hperm | by rewrite Hperm].
Qed.

(** X3: after a build that returned nil the cache holds a matcher for a text
    exactly when it held one before or the map has a regex entry of text kind
    with that text, other than the wildcard. *)
Theorem successful_build_cache_keys metadata c w c' w' :
  buildCacheFromMatcher metadata c w = (Returned None, c', w') ->
  forall v,
    is_Some (c' !! v) <->
    is_Some (c !! v)
    \/ exists key metaValue,
         (key, metaValue) ∈ metadata /\ needs_compile metaValue v.
Proof.
  intros Hb. eapply runs_success_keys. by apply buildCacheFromMatcher_runs.
Qed.

(** X4: after a build that returned nil, a build over entries of the same
    map, in any order and number, returns nil without calling the engine and
    without writing the cache. *)
Theorem rebuild_after_success_is_silent md1 md2 c w c1 w1 w2 :
  buildCacheFromMatcher md1 c w = (Returned None, c1, w1) ->
  md2 ⊆ md1 ->
  buildCacheFromMatcher md2 c1 w2 = (Returned None, c1, w2).
Proof.
  intros Hb Hsub.
  pose proof (buildCacheFromMatcher_runs _ _ _ _ _ _ Hb) as Hr.
  pose proof (proj1 (buildCacheFromMatcher_success md1 c w)) as Hall.
  rewrite Hb in Hall. specialize (Hall eq_refl).
  rewrite Forall_forall in Hall.
  rewrite buildCacheFromMatcher_range. apply range_metadata_silent.
  intros key mv Hin. apply (loop_body_settled c).
  - apply (Hall (key, mv)). by apply Hsub.
  - intros v Hn. eapply runs_success_cached; eauto.
Qed.

(** X5: a build that did not return nil does not return nil when it is run
    again on the cache it left, whatever the order of the second visit. *)
Theorem failed_build_fails_again md1 md2 c w r1 c1 w1 w2 :
  md1 ≡ₚ md2 ->
  buildCacheFromMatcher md1 c w = (r1, c1, w1) ->
  r1 <> Returned None ->
  fst (fst (buildCacheFromMatcher md2 c1 w2)) <> Returned None.
Proof.
  intros Hperm Hb Hfail Hok. apply Hfail.
  pose proof (buildCacheFromMatcher_runs _ _ _ _ _ _ Hb) as Hr.
  apply buildCacheFromMatcher_success in Hok.
  pose proof (proj2 (buildCacheFromMatcher_success md1 c w)) as Hback.
  rewrite Hb in Hback. apply Hback.
  rewrite Forall_forall in Hok |- *. intros e He.
  rewrite <- (entry_accepted_runs _ _ _ _ _ _ _ Hr). apply Hok.
  by rewrite <- Hperm.
Qed.

(** X6: an error the build returns is either the error of the empty
    variable, and the map has an entry of variable kind with an empty value,
    or the error of an invalid regex for the text of a regex entry of text
    kind that the engine refuses, with the cause the engine gave. *)
Theorem build_error_provenance metadata c w err c' w' :
  buildCacheFromMatcher metadata c w = (Returned (Some err), c', w') ->
  (err = err_empty_variable
   /\ exists key mv, (key, Some mv) ∈ metadata
        /\ ms_ValueType mv = MatchString_VARIABLE
        /\ StringValue_GetValue (ms_Value mv) = "")
  \/ (exists key metaValue v cause,
        (key, metaValue) ∈ metadata /\ needs_compile metaValue v
        /\ syntax_error v = Some cause
        /\ err = err_invalid_regex v cause).
Proof.
  intros Hb. pose proof (buildCacheFromMatcher_runs _ _ _ _ _ _ Hb) as Hr.
  exact (runs_provenance _ _ _ _ _ _ _ Hr).
Qed.

Lemma loop_body_iface_cache metaValue c w :
  loop_body_iface metaValue (Some c) w =
  (let '(k, c', w') := loop_body metaValue c w in (k, Some c', w')).
Proof.
  unfold loop_body_iface, loop_body.
  destruct (String.eqb _ MatchAll); [done |].
  destruct metaValue as [mv |]; [| done]. simpl.
  destruct (_ && _); [done |]. destruct (_ || _); [done |].
  destruct (GetRegexMatcher c _); [done |].
  destruct (regexp_Compile _ w) as [[regexValue | cause] w1]; [| done].
  by destruct (PutRegexMatcher c _ regexValue w1).
Qed.

Lemma range_metadata_iface_cache metadata : forall c w,
  range_metadata_iface metadata (Some c) w
  = on_cache (range_metadata metadata c w).
Proof.
  induction metadata as [| [key mv] rest IH]; intros c w; simpl; [done |].
  rewrite loop_body_iface_cache.
  destruct (loop_body mv c w) as [[[| err | msg] c1] w1]; auto.
Qed.

Lemma buildCacheFromMatcher_iface_cache metadata c w :
  buildCacheFromMatcher_iface metadata (Some c) w
  = on_cache (buildCacheFromMatcher metadata c w).
Proof.
  unfold buildCacheFromMatcher_iface, buildCacheFromMatcher.
  destruct (Nat.eqb (length metadata) 0); [done |].
  apply range_metadata_iface_cache.
Qed.

Lemma loop_body_iface_nil metaValue w k c' w' :
  loop_body_iface metaValue None w = (k, c', w') ->
  c' = None /\ w' = w
  /\ match k with
     | Continue => True
     | Return err => err = err_empty_variable
     | Panic msg =>
         msg = nil_dereference
         /\ (metaValue = None \/ exists v, needs_compile metaValue v)
     end.
Proof.
  unfold loop_body_iface.
  destruct (String.eqb_spec
              (StringValue_GetValue (MatchString_GetValue metaValue)) MatchAll)
    as [| Hne]; [by intros [= <- <- <-] |].
  destruct metaValue as [mv |]; [| intros [= <- <- <-]; auto]. simpl in *.
  destruct (_ && _); [by intros [= <- <- <-] |].
  destruct (ms_Type mv) eqn:Hty, (ms_ValueType mv) eqn:Hvt; simpl;
    intros [= <- <- <-]; repeat split; auto.
  right. exists (StringValue_GetValue (ms_Value mv)), mv. auto.
Qed.

Lemma range_metadata_iface_nil metadata : forall w r c' w',
  range_metadata_iface metadata None w = (r, c', w') ->
  forall msg, r = Panicked msg ->
    msg = nil_dereference
    /\ ((exists key, (key, None) ∈ metadata)
        \/ exists key metaValue v,
             (key, metaValue) ∈ metadata /\ needs_compile metaValue v).
Proof.
  induction metadata as [| [key mv] rest IH]; intros w r c' w' Hrun msg ->;
    simpl in Hrun.
  - discriminate.
  - destruct (loop_body_iface mv None w) as [[k c1] w1] eqn:Hb.
    destruct (loop_body_iface_nil _ _ _ _ _ Hb) as (-> & -> & Hk).
    destruct k as [| err | m].
    + destruct (IH _ _ _ _ Hrun _ eq_refl)
        as (-> & [(k & Hin) | (k & e & v & Hin & Hn)]).
      * split; [done |]. left. exists k. by apply list_elem_of_further.
      * split; [done |]. right. exists k, e, v.
        split; [by apply list_elem_of_further | done].
    + discriminate.
    + injection Hrun as <- <- <-.
      destruct Hk as (-> & [-> | [v Hn]]); (split; [done |]).
      * left. exists key. apply list_elem_of_here.
      * right. exists key, mv, v. split; [apply list_elem_of_here | done].
Qed.

(** X7: the build, given its cache as the interface value it receives,
    panics only by a nil dereference, and only when the map holds a nil entry
    or when the interface is nil and the map holds a regex entry of text kind
    whose value is not the wildcard; with no nil entry and a cache that is
    not nil it returns; a nil interface and one such regex entry make it
    panic; on a cache that is not nil it is the function on the cache. *)
Theorem build_panic_provenance metadata ruleCache w :
  (forall msg c' w',
     buildCacheFromMatcher_iface metadata ruleCache w = (Panicked msg, c', w') ->
     msg = nil_dereference
     /\ ((exists key, (key, None) ∈ metadata)
         \/ (ruleCache = None
             /\ exists key metaValue v,
                  (key, metaValue) ∈ metadata /\ needs_compile metaValue v)))
  /\ ((forall key, (key, None) ∉ metadata) ->
      ruleCache <> None ->
      exists r,
        fst (fst (buildCacheFromMatcher_iface metadata ruleCache w)) = Returned r)
  /\ (forall key metaValue v,
        needs_compile metaValue v ->
        buildCacheFromMatcher_iface [(key, metaValue)] None w
        = (Panicked nil_dereference, None, w))
  /\ (forall c,
        buildCacheFromMatcher_iface metadata (Some c) w
        = on_cache (buildCacheFromMatcher metadata c w)).
Proof.
  assert (Hpanic : forall msg c' w',
    buildCacheFromMatcher_iface metadata ruleCache w = (Panicked msg, c', w') ->
    msg = nil_dereference
    /\ ((exists key, (key, None) ∈ metadata)
        \/ (ruleCache = None
            /\ exists key metaValue v,
                 (key, metaValue) ∈ metadata /\ needs_compile metaValue v))).
  { intros msg c' w' Hb. destruct ruleCache as [c |].
    - rewrite buildCacheFromMatcher_iface_cache in Hb.
      destruct (buildCacheFromMatcher metadata c w) as [[r c1] w1] eqn:Hc.
      simpl in Hb. inversion Hb; subst.
      pose proof (buildCacheFromMatcher_runs _ _ _ _ _ _ Hc) as Hr.
      destruct (runs_provenance _ _ _ _ _ _ _ Hr) as [-> Hnil]. auto.
    - unfold buildCacheFromMatcher_iface in Hb.
      destruct (Nat.eqb (length metadata) 0); [discriminate |].
      destruct (range_metadata_iface_nil _ _ _ _ _ Hb _ eq_refl)
        as (-> & [Hnil | Hreg]); auto. }
  split; [exact Hpanic | split; [| split]].
  - intros Hnonil Hcache.
    destruct (buildCacheFromMatcher_iface metadata ruleCache w)
      as [[[r | msg] c'] w'] eqn:Hb; [eauto |].
    destruct (Hpanic _ _ _ eq_refl) as (_ & [(key & Hin) | (Hnone & _)]);
      [by destruct (Hnonil key) | done].
  - intros key metaValue v (mv & -> & Hty & Hvt & Hv & Hne).
    unfold buildCacheFromMatcher_iface. simpl. unfold loop_body_iface. simpl.
    rewrite Hv, Hty, Hvt.
    destruct (String.eqb_spec v MatchAll); [done |]. done.
  - intros c. apply buildCacheFromMatcher_iface_cache.
Qed.

(** X8: within one build the engine is called at most once for a given text
    and at most once per entry of the map, and the build makes at most two
    calls, to the engine or to the cache, per entry. *)
Theorem engine_called_once_per_text metadata c w :
  let '(_, _, w') := buildCacheFromMatcher metadata c w in
  (forall v, count_events (is_compile v) (events_since w w') <= 1)
  /\ count_events is_compile_call (events_since w w') <= length metadata
  /\ length (events_since w w') <= 2 * length metadata.
Proof.
  destruct (buildCacheFromMatcher metadata c w) as [[r c'] w'] eqn:Hb.
  pose proof (buildCacheFromMatcher_runs _ _ _ _ _ _ Hb) as Hr.
  exact (runs_compile_bounds _ _ _ _ _ _ _ Hr).
Qed.

(** X9: when every matcher of the cache is stored under the text it was
    compiled from, the same holds of the cache the build leaves, whatever the
    build returns. *)
Theorem build_keeps_keyed_by_text metadata c w :
  keyed_by_text c ->
  keyed_by_text (snd (fst (buildCacheFromMatcher metadata c w))).
Proof.
  intros Hk.
  destruct (buildCacheFromMatcher metadata c w) as [[r c'] w'] eqn:Hb.
  pose proof (buildCacheFromMatcher_runs _ _ _ _ _ _ Hb) as Hr.
  by eapply runs_keyed_by_text.
Qed.

End BuildExtras.

(** ** Further properties of the rule document *)

Section DocumentExtras.

Context {Message Raw : Type} `{Assistants Message Raw}.

Lemma ValidateAndBuildCache_frame (s : ServiceRuleInProto Message Raw)
  w r s' w' :
  ValidateAndBuildCache s w = (r, s', w') ->
  embedded_ServiceKey s' = embedded_ServiceKey s
  /\ initialized s' = initialized s
  /\ revision s' = revision s
  /\ eventType s' = eventType s
  /\ assistant s' = assistant s
  /\ CacheLoaded s' = CacheLoaded s.
Proof.
  unfold ValidateAndBuildCache.
  destruct (assistant s) as [a |] eqn:Ha;
    [| intros [= _ <- _]; by rewrite Ha].
  destruct (Validate a _ _ w) as [[[[err |] | msg] c] w1];
    intros [= _ <- _]; simpl; by rewrite Ha.
Qed.

Lemma validated_from_frame (s s' : ServiceRuleInProto Message Raw) :
  validated_from s s' ->
  embedded_ServiceKey s' = embedded_ServiceKey s
  /\ initialized s' = initialized s
  /\ revision s' = revision s
  /\ eventType s' = eventType s
  /\ assistant s' = assistant s
  /\ CacheLoaded s' = CacheLoaded s.
Proof.
  induction 1 as [s | s w r s1 w1 s2 Hv Hrest IH]; [auto 10 |].
  destruct (ValidateAndBuildCache_frame _ _ _ _ _ Hv)
    as (E1 & E2 & E3 & E4 & E5 & E6).
  destruct IH as (I1 & I2 & I3 & I4 & I5 & I6).
  repeat split; congruence.
Qed.

Lemma NewServiceRuleInProto_returned (resp : option (DiscoverResponse Raw))
  doc :
  NewServiceRuleInProto resp = Returned doc ->
  (resp = None /\ doc = zero_ServiceRuleInProto)
  \/ (exists r svc a,
        resp = Some r /\ resp_Service r = Some svc
        /\ eventTypeToAssistant (GetEventType (resp_Type r)) = Some a
        /\ doc =
           {| embedded_ServiceKey :=
                Some {| Namespace := StringValue_GetValue (pb_Namespace svc);
                        Service := StringValue_GetValue (pb_Name svc) |};
              initialized := true;
              revision := snd (ParseRuleValue a r);
              ruleValue := fst (ParseRuleValue a r);
              ruleCache := Some NewRuleCache;
              eventType := GetEventType (resp_Type r);
              assistant := Some a;
              CacheLoaded := 0;
              validateError := None |}).
Proof.
  unfold NewServiceRuleInProto.
  destruct resp as [r |]; [| intros [= <-]; by left].
  destruct (resp_Service r) as [svc |] eqn:Hsvc; [| discriminate].
  destruct (eventTypeToAssistant _) as [a |] eqn:Ha; [| discriminate].
  destruct (ParseRuleValue a r) as [value rev] eqn:Hp.
  intros [= <-]. right. exists r, svc, a. by rewrite Hp.
Qed.

(** X10: the constructor panics exactly on a response that is not nil and
    that has no service or whose kind has no assistant in the dispatch
    table; the panic is a nil dereference. *)
Theorem constructor_panics_iff (resp : option (DiscoverResponse Raw)) :
  (NewServiceRuleInProto resp = Panicked nil_dereference <->
   exists r, resp = Some r
     /\ (resp_Service r = None
         \/ eventTypeToAssistant (GetEventType (resp_Type r)) = None))
  /\ (forall msg,
        NewServiceRuleInProto resp = Panicked msg -> msg = nil_dereference).
Proof.
  unfold NewServiceRuleInProto.
  destruct resp as [r |].
  - destruct (resp_Service r) as [svc |] eqn:Hsvc.
    + destruct (eventTypeToAssistant _) as [a |] eqn:Ha.
      * destruct (ParseRuleValue a r) as [value rev].
        split; [| discriminate].
        split; [discriminate |].
        intros (r0 & [= <-] & [Hn | Hn]); congruence.
      * split; [| by intros msg [= <-]].
        split; [| done]. intros _. exists r. auto.
    + split; [| by intros msg [= <-]].
      split; [| done]. intros _. exists r. auto.
  - split; [| discriminate].
    split; [discriminate | intros (r0 & [=] & _)].
Qed.

(** X11: on a document the constructor returned, and after any number of
    validations of it, the accessors of the namespace and of the service
    return without panic, and they, the revision, the kind, the initialized
    flag and the cache-loaded flag are what they were after construction;
    the cache-loaded flag is false. *)
Theorem accessors_stable_under_validation
  (resp : option (DiscoverResponse Raw)) doc doc' :
  NewServiceRuleInProto resp = Returned doc ->
  validated_from doc doc' ->
  IsInitialized doc' = IsInitialized doc
  /\ GetNamespace doc' = GetNamespace doc
  /\ GetService doc' = GetService doc
  /\ GetRevision doc' = GetRevision doc
  /\ GetType doc' = GetType doc
  /\ IsCacheLoaded doc' = false
  /\ (exists ns sv,
        GetNamespace doc' = Returned ns /\ GetService doc' = Returned sv)
  /\ (IsInitialized doc' = true <-> resp <> None).
Proof.
  intros Hnew Hval.
  destruct (validated_from_frame _ _ Hval) as (E1 & E2 & E3 & E4 & E5 & E6).
  assert (Hns : GetNamespace doc' = GetNamespace doc)
    by (unfold GetNamespace; by rewrite E1, E2).
  assert (Hsv : GetService doc' = GetService doc)
    by (unfold GetService; by rewrite E1, E2).
  unfold IsInitialized, GetRevision, GetType, IsCacheLoaded.
  rewrite Hns, Hsv, E2, E3, E4, E6.
  destruct (NewServiceRuleInProto_returned _ _ Hnew)
    as [[-> ->] | (r & svc & a & -> & _ & _ & ->)]; simpl.
  - repeat split; eauto; done.
  - repeat split; eauto; done.
Qed.

(** X12: the first validation of a document the constructor returned leaves
    in the document exactly what it returned: the error when it returned one,
    nil when it returned nil. *)
Theorem first_validation_records_outcome
  (resp : option (DiscoverResponse Raw)) doc w r doc' w' :
  NewServiceRuleInProto resp = Returned doc ->
  ValidateAndBuildCache doc w = (Returned r, doc', w') ->
  GetValidateError doc' = r.
Proof.
  intros Hnew.
  assert (Hnone : validateError doc = None).
  { destruct (NewServiceRuleInProto_returned _ _ Hnew)
      as [[_ ->] | (? & ? & ? & _ & _ & _ & ->)]; done. }
  unfold ValidateAndBuildCache, GetValidateError.
  destruct (assistant doc) as [a |]; [| discriminate].
  destruct (Validate a _ _ w) as [[[[err |] | msg] c] w1];
    intros [= <- <- _]; simpl; done.
Qed.

(** X13: validation never clears a recorded error: a document that reports a
    validation error reports one after any number of further validations. *)
Theorem recorded_error_never_cleared (s s' : ServiceRuleInProto Message Raw) :
  validated_from s s' ->
  is_Some (GetValidateError s) ->
  is_Some (GetValidateError s').
Proof.
  induction 1 as [s | s w r s1 w1 s2 Hv Hrest IH]; [done |].
  intros Herr. apply IH. revert Hv.
  unfold ValidateAndBuildCache, GetValidateError in *.
  destruct (assistant s) as [a |]; [| by intros [= _ <- _]].
  destruct (Validate a _ _ w) as [[[[err |] | msg] c] w1'];
    intros [= _ <- _]; simpl; eauto.
Qed.

(** X14: the document built from a response is validated by the assistant
    the dispatch table holds for the kind of the response: the validation
    returns what the Validate of that assistant returns on the parsed payload
    after its SetDefault and on the new empty cache, and the payload of the
    document is then the payload after SetDefault. *)
Theorem validation_uses_dispatched_assistant (r : DiscoverResponse Raw)
  (svc : pbService) (a : ServiceRuleAssistant Message Raw) (w : World) :
  resp_Service r = Some svc ->
  eventTypeToAssistant (GetEventType (resp_Type r)) = Some a ->
  exists doc,
    NewServiceRuleInProto (Some r) = Returned doc
    /\ (let payload := SetDefault a (fst (ParseRuleValue a r)) in
        let '(res, doc', w') := ValidateAndBuildCache doc w in
        res = fst (fst (Validate a payload (Some NewRuleCache) w))
        /\ GetRuleCache doc' = snd (fst (Validate a payload (Some NewRuleCache) w))
        /\ w' = snd (Validate a payload (Some NewRuleCache) w)
        /\ GetValue doc' = payload).
Proof.
  intros Hsvc Ha. unfold NewServiceRuleInProto. rewrite Hsvc, Ha.
  destruct (ParseRuleValue a r) as [value rev]. eexists. split; [done |].
  unfold ValidateAndBuildCache. simpl.
  destruct (Validate a (SetDefault a value) (Some NewRuleCache) w)
    as [[[[err |] | msg] c] w1]; simpl; auto.
Qed.

End DocumentExtras.

(** ** The further properties on the sample engine and assistant *)

Lemma needs_compile_regex_text v :
  v <> MatchAll -> needs_compile (regex_text v) v.
Proof. intros Hv. eexists. repeat split; done. Qed.

Lemma build_order_independent_witness :
  wildcard_exact_foo ≡ₚ reverse wildcard_exact_foo
  /\ (let '(r1, c1, _) :=
        @buildCacheFromMatcher sample_engine wildcard_exact_foo
          NewRuleCache world0 in
      let '(r2, c2, _) :=
        @buildCacheFromMatcher sample_engine (reverse wildcard_exact_foo)
          NewRuleCache world0 in
      r1 = Returned None /\ r2 = Returned None
      /\ (is_Some (c1 !! "^foo.*") <-> is_Some (c2 !! "^foo.*"))).
Proof.
  assert (Hperm : wildcard_exact_foo ≡ₚ reverse wildcard_exact_foo)
    by (symmetry; apply reverse_Permutation).
  split; [exact Hperm |].
  generalize (@build_order_independent sample_engine wildcard_exact_foo
                (reverse wildcard_exact_foo) NewRuleCache world0 world0 Hperm).
  destruct (@buildCacheFromMatcher sample_engine wildcard_exact_foo
              NewRuleCache world0) as [[r1 c1] w1] eqn:E1.
  destruct (@buildCacheFromMatcher sample_engine (reverse wildcard_exact_foo)
              NewRuleCache world0) as [[r2 c2] w2] eqn:E2.
  intros [Hiff Hkeys].
  assert (Hr1 : r1 = Returned None)
    by (vm_compute in E1; by injection E1 as <- _ _).
  split; [exact Hr1 | split; [by apply Hiff | by apply Hkeys]].
Defined.

Lemma successful_build_cache_keys_witness :
  let '(r, c', w') :=
    @buildCacheFromMatcher sample_engine wildcard_exact_foo
      NewRuleCache world0 in
  r = Returned None
  /\ is_Some (c' !! "^foo.*")
  /\ ~ is_Some (c' !! "a.*(b").
Proof.
  destruct (@buildCacheFromMatcher sample_engine wildcard_exact_foo
              NewRuleCache world0) as [[r c'] w'] eqn:E.
  assert (Hr : r = Returned None)
    by (vm_compute in E; by injection E as <- _ _).
  subst r. split; [done |].
  pose proof (@successful_build_cache_keys sample_engine _ _ _ _ _ E) as Hkeys.
  split.
  - apply Hkeys. right. exists "r", (regex_text "^foo.*").
    split; [do 2 apply list_elem_of_further; apply list_elem_of_here |].
    by apply needs_compile_regex_text.
  - intros Hin. apply Hkeys in Hin as [[m Hm] | (key & mv & Hin & Hn)].
    + unfold NewRuleCache in Hm. by rewrite lookup_empty in Hm.
    + destruct Hn as (ms & -> & Hty & Hvt & Hv & Hne).
      unfold wildcard_exact_foo in Hin.
      rewrite !elem_of_cons, elem_of_nil in Hin.
      destruct Hin as [Heq | [Heq | [Heq | []]]];
        unfold regex_text, exact_text in Heq; inversion Heq; subst;
        simpl in *; discriminate.
Defined.

Lemma rebuild_after_success_is_silent_witness :
  let '(r1, c1, w1) :=
    @buildCacheFromMatcher sample_engine wildcard_exact_foo
      NewRuleCache world0 in
  r1 = Returned None
  /\ @buildCacheFromMatcher sample_engine (reverse wildcard_exact_foo) c1 w1
     = (Returned None, c1, w1).
Proof.
  destruct (@buildCacheFromMatcher sample_engine wildcard_exact_foo
              NewRuleCache world0) as [[r1 c1] w1] eqn:E.
  assert (Hr : r1 = Returned None)
    by (vm_compute in E; by injection E as <- _ _).
  subst r1. split; [done |].
  apply (@rebuild_after_success_is_silent sample_engine _ _ _ _ _ _ w1 E).
  intros e He. by apply elem_of_reverse in He.
Defined.

Lemma failed_build_fails_again_witness :
  let '(r1, c1, w1) :=
    @buildCacheFromMatcher sample_engine foo_then_unclosed
      NewRuleCache world0 in
  r1 <> Returned None
  /\ fst (fst (@buildCacheFromMatcher sample_engine
                 (reverse foo_then_unclosed) c1 w1)) <> Returned None.
Proof.
  destruct (@buildCacheFromMatcher sample_engine foo_then_unclosed
              NewRuleCache world0) as [[r1 c1] w1] eqn:E.
  assert (Hr : r1 <> Returned None)
    by (vm_compute in E; injection E as <- _ _; discriminate).
  split; [exact Hr |].
  apply (@failed_build_fails_again sample_engine foo_then_unclosed
           (reverse foo_then_unclosed) NewRuleCache world0 r1 c1 w1 w1);
    [symmetry; apply reverse_Permutation | exact E | exact Hr].
Defined.

Lemma build_error_provenance_witness :
  let '(r, c', w') :=
    @buildCacheFromMatcher sample_engine unclosed_then_empty_variable
      NewRuleCache world0 in
  exists err,
    r = Returned (Some err)
    /\ ((err = err_empty_variable
         /\ exists key mv, (key, Some mv) ∈ unclosed_then_empty_variable
              /\ ms_ValueType mv = MatchString_VARIABLE
              /\ StringValue_GetValue (ms_Value mv) = "")
        \/ (exists key metaValue v cause,
              (key, metaValue) ∈ unclosed_then_empty_variable
              /\ needs_compile metaValue v
              /\ @syntax_error sample_engine v = Some cause
              /\ err = err_invalid_regex v cause)).
Proof.
  destruct (@buildCacheFromMatcher sample_engine unclosed_then_empty_variable
              NewRuleCache world0) as [[r c'] w'] eqn:E.
  exists (err_invalid_regex "(unclosed" unclosed_cause).
  assert (Hr : r = Returned (Some (err_invalid_regex "(unclosed" unclosed_cause)))
    by (vm_compute in E; by injection E as <- _ _).
  subst r. split; [done |].
  exact (@build_error_provenance sample_engine _ _ _ _ _ _ E).
Defined.

Lemma build_panic_provenance_witness :
  (forall key, (key, None) ∉ foo_then_unclosed)
  /\ Some NewRuleCache <> None
  /\ (exists r,
        fst (fst (@buildCacheFromMatcher_iface sample_engine foo_then_unclosed
                    (Some NewRuleCache) world0)) = Returned r)
  /\ needs_compile (regex_text "^foo.*") "^foo.*"
  /\ @buildCacheFromMatcher_iface sample_engine
       [("a", regex_text "^foo.*")] None world0
     = (Panicked nil_dereference, None, world0).
Proof.
  assert (Hnonil : forall key, (key, None) ∉ foo_then_unclosed).
  { intros key Hin. unfold foo_then_unclosed in Hin.
    rewrite !elem_of_cons, elem_of_nil in Hin.
    destruct Hin as [[=] | [[=] | []]]. }
  assert (Hneed : needs_compile (regex_text "^foo.*") "^foo.*")
    by (by apply needs_compile_regex_text).
  split; [exact Hnonil | split; [discriminate | split]].
  - apply (proj1 (proj2 (@build_panic_provenance sample_engine
                           foo_then_unclosed (Some NewRuleCache) world0)));
      [exact Hnonil | discriminate].
  - split; [exact Hneed |].
    exact (proj1 (proj2 (proj2 (@build_panic_provenance sample_engine
                                  [] None world0)))
             "a" (regex_text "^foo.*") "^foo.*" Hneed).
Defined.

Lemma build_keeps_keyed_by_text_witness :
  keyed_by_text NewRuleCache
  /\ keyed_by_text
       (snd (fst (@buildCacheFromMatcher sample_engine foo_then_unclosed
                    NewRuleCache world0))).
Proof.
  assert (Hk : keyed_by_text NewRuleCache)
    by (intros text m Hm; unfold NewRuleCache in Hm;
        by rewrite lookup_empty in Hm).
  split; [exact Hk |].
  exact (@build_keeps_keyed_by_text sample_engine foo_then_unclosed
           NewRuleCache world0 Hk).
Defined.

Lemma revalidation_first_step :
  validated_from revalidation_constructed (snd (fst revalidation_first)).
Proof.
  apply (validated_again revalidation_constructed world0
           (fst (fst revalidation_first)) (snd (fst revalidation_first))
           (snd revalidation_first)); [| apply validated_none].
  unfold revalidation_first.
  by destruct (ValidateAndBuildCache revalidation_constructed world0) as [[? ?] ?].
Qed.

Lemma accessors_stable_under_validation_witness :
  GetNamespace (snd (fst revalidation_first)) = Returned "Test"
  /\ GetService (snd (fst revalidation_first)) = Returned "svc"
  /\ GetRevision (snd (fst revalidation_first)) = "rev-1"
  /\ IsInitialized (snd (fst revalidation_first)) = true.
Proof.
  destruct (@accessors_stable_under_validation _ _
              (@sample_assistants sample_engine)
              (Some revalidation_response) revalidation_constructed
              (snd (fst revalidation_first)) eq_refl revalidation_first_step)
    as (Hi & Hns & Hsv & Hrev & _).
  rewrite Hi, Hns, Hsv, Hrev. repeat split.
Defined.

Lemma first_validation_records_outcome_witness :
  fst (fst revalidation_first)
  = Returned (Some (err_invalid_regex "(unclosed" unclosed_cause))
  /\ GetValidateError (snd (fst revalidation_first))
     = Some (err_invalid_regex "(unclosed" unclosed_cause).
Proof.
  split; [vm_compute; reflexivity |].
  apply (@first_validation_records_outcome _ _
           (@sample_assistants sample_engine)
           (Some revalidation_response) revalidation_constructed world0 _
           (snd (fst revalidation_first)) (snd revalidation_first) eq_refl).
  vm_compute. reflexivity.
Defined.

Lemma recorded_error_never_cleared_witness :
  is_Some (GetValidateError
             (write_through_GetValue (fun _ => [[("k", regex_text "^foo.*")]])
                (snd (fst revalidation_first))))
  /\ fst (fst revalidation_second) = Returned None
  /\ is_Some (GetValidateError (snd (fst revalidation_second))).
Proof.
  assert (Herr : is_Some (GetValidateError
                   (write_through_GetValue
                      (fun _ => [[("k", regex_text "^foo.*")]])
                      (snd (fst revalidation_first)))))
    by (exists (err_invalid_regex "(unclosed" unclosed_cause);
        vm_compute; reflexivity).
  split; [exact Herr | split; [vm_compute; reflexivity |]].
  refine (@recorded_error_never_cleared _ _ _ _ _ Herr).
  apply (validated_again _ (snd revalidation_first)
           (fst (fst revalidation_second)) (snd (fst revalidation_second))
           (snd revalidation_second));
    [| apply validated_none].
  unfold revalidation_second.
  by destruct (ValidateAndBuildCache _ _) as [[? ?] ?].
Defined.

Lemma validation_uses_dispatched_assistant_witness :
  exists doc,
    @NewServiceRuleInProto _ _ (@sample_assistants sample_engine)
      (Some revalidation_response) = Returned doc
    /\ fst (fst (ValidateAndBuildCache doc world0))
       = Returned (Some (err_invalid_regex "(unclosed" unclosed_cause)).
Proof.
  destruct (@validation_uses_dispatched_assistant _ _
              (@sample_assistants sample_engine) revalidation_response
              {| pb_Namespace := Some "Test"; pb_Name := Some "svc" |}
              (@sample_assistant sample_engine) world0 eq_refl eq_refl)
    as (doc & Hnew & Hval).
  exists doc. split; [exact Hnew |].
  destruct (ValidateAndBuildCache doc world0) as [[res doc'] w'].
  destruct Hval as (-> & _). vm_compute. reflexivity.
Defined.
